(** * NewsRegistry and PublisherRegistry: a shallow embedding

    The two Solidity contracts of the repository ([contracts/NewsRegistry.sol]
    and [contracts/PublisherRegistry.sol]) are embedded as functions in a
    small state-and-revert monad over the storage of both contracts.
    Storage mappings are finite maps read with Solidity's zero default,
    [uint256] arithmetic is checked (compiler 0.8: overflow panics), and a
    transaction that reverts is rolled back to the storage it started from. *)

From stdpp Require Import base option list gmap strings fin_maps sorting pretty.
From Stdlib Require Import NArith Lia.

Local Open Scope N_scope.

(** ** Value types *)

Abbreviation address := N (only parsing).
Abbreviation bytes32 := N (only parsing).
Abbreviation uint256 := N (only parsing).

(** [type(uint256).max + 1] *)
Definition MAX_UINT256_SUCC : N := 2 ^ 256.

(** [enum Status { UnderReview, VerifiedTrue, MarkedFake, Disputed }] *)
Inductive Status := UnderReview | VerifiedTrue | MarkedFake | Disputed.

(** [struct Article] *)
Record Article := mkArticle {
  contentHash : bytes32;
  uri : string;
  publisher : address;
  submitter : address;
  createdAt : uint256;
  status : Status;
  yesVotes : uint256;
  noVotes : uint256;
  finalized : bool
}.

(** The value every unwritten storage slot of type [Article] reads as. *)
Definition zeroArticle : Article :=
  mkArticle 0 "" 0 0 0 UnderReview 0 0 false.

Definition set_contentHash (v : bytes32) (a : Article) : Article :=
  mkArticle v (uri a) (publisher a) (submitter a) (createdAt a) (status a)
            (yesVotes a) (noVotes a) (finalized a).
Definition set_uri (v : string) (a : Article) : Article :=
  mkArticle (contentHash a) v (publisher a) (submitter a) (createdAt a) (status a)
            (yesVotes a) (noVotes a) (finalized a).
Definition set_publisher (v : address) (a : Article) : Article :=
  mkArticle (contentHash a) (uri a) v (submitter a) (createdAt a) (status a)
            (yesVotes a) (noVotes a) (finalized a).
Definition set_submitter (v : address) (a : Article) : Article :=
  mkArticle (contentHash a) (uri a) (publisher a) v (createdAt a) (status a)
            (yesVotes a) (noVotes a) (finalized a).
Definition set_createdAt (v : uint256) (a : Article) : Article :=
  mkArticle (contentHash a) (uri a) (publisher a) (submitter a) v (status a)
            (yesVotes a) (noVotes a) (finalized a).
Definition set_status (v : Status) (a : Article) : Article :=
  mkArticle (contentHash a) (uri a) (publisher a) (submitter a) (createdAt a) v
            (yesVotes a) (noVotes a) (finalized a).
Definition set_yesVotes (v : uint256) (a : Article) : Article :=
  mkArticle (contentHash a) (uri a) (publisher a) (submitter a) (createdAt a) (status a)
            v (noVotes a) (finalized a).
Definition set_noVotes (v : uint256) (a : Article) : Article :=
  mkArticle (contentHash a) (uri a) (publisher a) (submitter a) (createdAt a) (status a)
            (yesVotes a) v (finalized a).
Definition set_finalized (v : bool) (a : Article) : Article :=
  mkArticle (contentHash a) (uri a) (publisher a) (submitter a) (createdAt a) (status a)
            (yesVotes a) (noVotes a) v.

(** ** Storage of the two contracts *)

(** [contract PublisherRegistry is Ownable]: the owner slot of the base
    contract and [mapping(address => bool) public isTrusted]. *)
Record PublisherRegistry := mkPublisherRegistry {
  pr_owner : address;
  isTrusted : gmap address bool
}.

(** [contract NewsRegistry is Ownable].  The [publisherRegistry] reference is
    not a field here: the ledger below holds the one PublisherRegistry the
    deployment script passes to the constructor, and the external call
    [publisherRegistry.isTrusted(_)] reads that instance. *)
Record NewsRegistry := mkNewsRegistry {
  nr_owner : address;
  votingPeriod : uint256;
  minVotes : uint256;
  articles : gmap bytes32 Article;
  hasVoted : gmap bytes32 (gmap address bool)
}.

Record Ledger := mkLedger {
  registry : PublisherRegistry;
  news : NewsRegistry
}.

(** Reads of storage mappings: an absent key reads as the zero value. *)
Definition trusted (s : Ledger) (p : address) : bool :=
  default false (isTrusted (registry s) !! p).

Definition article (s : Ledger) (h : bytes32) : Article :=
  default zeroArticle (articles (news s) !! h).

Definition voters (s : Ledger) (h : bytes32) : gmap address bool :=
  default ∅ (hasVoted (news s) !! h).

Definition voted (s : Ledger) (h : bytes32) (v : address) : bool :=
  default false (voters s h !! v).

(** Writes of storage slots. *)
Definition write_isTrusted (p : address) (b : bool) (s : Ledger) : Ledger :=
  mkLedger (mkPublisherRegistry (pr_owner (registry s))
                                (<[p := b]> (isTrusted (registry s))))
           (news s).

Definition write_pr_owner (o : address) (s : Ledger) : Ledger :=
  mkLedger (mkPublisherRegistry o (isTrusted (registry s))) (news s).

Definition write_nr_owner (o : address) (s : Ledger) : Ledger :=
  mkLedger (registry s)
           (mkNewsRegistry o (votingPeriod (news s)) (minVotes (news s))
                           (articles (news s)) (hasVoted (news s))).

Definition write_votingPeriod (v : uint256) (s : Ledger) : Ledger :=
  mkLedger (registry s)
           (mkNewsRegistry (nr_owner (news s)) v (minVotes (news s))
                           (articles (news s)) (hasVoted (news s))).

Definition write_minVotes (v : uint256) (s : Ledger) : Ledger :=
  mkLedger (registry s)
           (mkNewsRegistry (nr_owner (news s)) (votingPeriod (news s)) v
                           (articles (news s)) (hasVoted (news s))).

(** [a.field = v] through the storage reference [a = articles[h]]. *)
Definition write_article (h : bytes32) (f : Article → Article) (s : Ledger) : Ledger :=
  mkLedger (registry s)
           (mkNewsRegistry (nr_owner (news s)) (votingPeriod (news s)) (minVotes (news s))
                           (<[h := f (article s h)]> (articles (news s)))
                           (hasVoted (news s))).

(** [hasVoted[h][v] = b] *)
Definition write_hasVoted (h : bytes32) (v : address) (b : bool) (s : Ledger) : Ledger :=
  mkLedger (registry s)
           (mkNewsRegistry (nr_owner (news s)) (votingPeriod (news s)) (minVotes (news s))
                           (articles (news s))
                           (<[h := <[v := b]> (voters s h)]> (hasVoted (news s)))).

(** ** Events, errors and the transaction monad *)

Inductive Event :=
| Submitted (h : bytes32) (who : address) (u : string)
| PublisherAutoVerified (h : bytes32)
| Voted (h : bytes32) (voter : address) (support : bool)
| Finalized (h : bytes32) (finalStatus : Status)
| PublisherAdded (p : address)
| PublisherRemoved (p : address).

(** Reasons for a revert: a failed [require] with its message, the owner
    check of the [onlyOwner] modifier, an invalid new owner, or the
    arithmetic-overflow panic of checked [uint256] addition. *)
Inductive Error :=
| RequireFailed (msg : string)
| Unauthorized (caller : address)
| InvalidOwner
| ArithmeticOverflow.

(** The names the specification gives to the [require] failures. *)
Definition DuplicateSubmission : Error := RequireFailed "Already submitted".
Definition NotFound : Error := RequireFailed "Not submitted".
Definition AlreadyFinalized : Error := RequireFailed "Already finalized".
Definition DuplicateVote : Error := RequireFailed "Already voted".
Definition AlreadyTrusted : Error := RequireFailed "Already trusted".
Definition NotTrusted : Error := RequireFailed "Not trusted".

(** [msg.sender] and [block.timestamp] of a call. *)
Record Ctx := mkCtx {
  msg_sender : address;
  block_timestamp : uint256
}.

(** A running call either finishes with a value, the storage and the events
    emitted so far, or reverts; [Revert] keeps the storage as it was at the
    point of failure, which the transaction wrapper [execute] throws away. *)
Inductive outcome (A : Type) :=
| Done (a : A) (s : Ledger) (log : list Event)
| Revert (e : Error) (dirty : Ledger).
Arguments Done {A} a s log.
Arguments Revert {A} e dirty.

Definition Tx (A : Type) : Type := Ledger → list Event → outcome A.

#[global] Instance Tx_ret : MRet Tx := λ A a s log, Done a s log.
#[global] Instance Tx_bind : MBind Tx := λ A B f m s log,
  match m s log with
  | Done a s' log' => f a s' log'
  | Revert e d => Revert e d
  end.

Definition gets {A} (f : Ledger → A) : Tx A := λ s log, Done (f s) s log.
Definition modify (f : Ledger → Ledger) : Tx unit := λ s log, Done () (f s) log.
Definition emit (e : Event) : Tx unit := λ s log, Done () s (log ++ [e]).
Definition revert {A} (e : Error) : Tx A := λ s _, Revert e s.
Definition require (b : bool) (msg : string) : Tx unit :=
  if b then mret () else revert (RequireFailed msg).

(** Checked [uint256] addition: [x + y] panics when the sum leaves the type. *)
Definition checked_add (x y : uint256) : Tx uint256 :=
  if x + y <? MAX_UINT256_SUCC then mret (x + y) else revert ArithmeticOverflow.

(** ** Ownership *)

(** Modelled from the spec: the [Ownable] base contract both contracts
    inherit is imported from a library and is not part of the sources.  Per
    the specification the owner is one stored address, set at creation to
    the deployer, compared with the caller at the top of every gated
    operation (failure: [Unauthorized]), and transferable only by the
    current holder.  [sel] reads the owner slot of the contract at hand. *)
Definition onlyOwner (sel : Ledger → address) (ctx : Ctx) : Tx unit :=
  o ← gets sel;
  if decide (o = msg_sender ctx) then mret ()
  else revert (Unauthorized (msg_sender ctx)).

(** Modelled from the spec: ownership transfer by the current holder; the
    empty address is not accepted as a new owner. *)
Definition transferOwnership (sel : Ledger → address) (upd : address → Ledger → Ledger)
    (ctx : Ctx) (newOwner : address) : Tx unit :=
  onlyOwner sel ctx;;
  (if decide (newOwner = 0) then revert InvalidOwner else mret ());;
  modify (upd newOwner).

(** Modelled from the spec: the explicit, irreversible give-up of the owner
    capability. *)
Definition renounceOwnership (sel : Ledger → address) (upd : address → Ledger → Ledger)
    (ctx : Ctx) : Tx unit :=
  onlyOwner sel ctx;;
  modify (upd 0).

(** ** PublisherRegistry *)

Definition pr_owner_of (s : Ledger) : address := pr_owner (registry s).
Definition nr_owner_of (s : Ledger) : address := nr_owner (news s).

(** [constructor() Ownable(msg.sender) {}] *)
Definition PublisherRegistry_constructor (ctx : Ctx) : PublisherRegistry :=
  mkPublisherRegistry (msg_sender ctx) ∅.

(** The public getter [isTrusted(address)], also the external call
    [IPublisherRegistry.isTrusted] made by NewsRegistry. *)
Definition isTrusted_getter (_publisher : address) : Tx bool :=
  gets (λ s, trusted s _publisher).

Definition addPublisher (ctx : Ctx) (_publisher : address) : Tx unit :=
  onlyOwner pr_owner_of ctx;;
  t ← gets (λ s, trusted s _publisher);
  require (negb t) "Already trusted";;
  modify (write_isTrusted _publisher true);;
  emit (PublisherAdded _publisher).

Definition removePublisher (ctx : Ctx) (_publisher : address) : Tx unit :=
  onlyOwner pr_owner_of ctx;;
  t ← gets (λ s, trusted s _publisher);
  require t "Not trusted";;
  modify (write_isTrusted _publisher false);;
  emit (PublisherRemoved _publisher).

Definition trustStatus (_publisher : address) : Tx bool :=
  gets (λ s, trusted s _publisher).

(** ** NewsRegistry *)

(** [constructor(_publisherRegistry, _votingPeriod, _minVotes) Ownable(msg.sender)] *)
Definition NewsRegistry_constructor (ctx : Ctx) (_votingPeriod _minVotes : uint256)
    : NewsRegistry :=
  mkNewsRegistry (msg_sender ctx) _votingPeriod _minVotes ∅ ∅.

Definition submitArticle (ctx : Ctx) (_contentHash : bytes32) (_uri : string)
    (_publisher : address) : Tx unit :=
  c ← gets (λ s, createdAt (article s _contentHash));
  require (c =? 0) "Already submitted";;
  modify (write_article _contentHash (set_contentHash _contentHash));;
  modify (write_article _contentHash (set_uri _uri));;
  modify (write_article _contentHash (set_publisher _publisher));;
  modify (write_article _contentHash (set_submitter (msg_sender ctx)));;
  modify (write_article _contentHash (set_createdAt (block_timestamp ctx)));;
  modify (write_article _contentHash (set_status UnderReview));;
  (* auto-verify if publisher is trusted; [&&] evaluates the call only for a
     non-zero publisher *)
  t ← (if negb (_publisher =? 0) then isTrusted_getter _publisher else mret false);
  if t : bool then
    modify (write_article _contentHash (set_status VerifiedTrue));;
    modify (write_article _contentHash (set_finalized true));;
    emit (PublisherAutoVerified _contentHash);;
    st ← gets (λ s, status (article s _contentHash));
    emit (Finalized _contentHash st)
  else
    emit (Submitted _contentHash (msg_sender ctx) _uri).

Definition vote (ctx : Ctx) (_contentHash : bytes32) (support : bool) : Tx unit :=
  c ← gets (λ s, createdAt (article s _contentHash));
  require (negb (c =? 0)) "Not submitted";;
  f ← gets (λ s, finalized (article s _contentHash));
  require (negb f) "Already finalized";;
  v ← gets (λ s, voted s _contentHash (msg_sender ctx));
  require (negb v) "Already voted";;
  modify (write_hasVoted _contentHash (msg_sender ctx) true);;
  (if support then
     y ← gets (λ s, yesVotes (article s _contentHash));
     y' ← checked_add y 1;
     modify (write_article _contentHash (set_yesVotes y'))
   else
     n ← gets (λ s, noVotes (article s _contentHash));
     n' ← checked_add n 1;
     modify (write_article _contentHash (set_noVotes n')));;
  emit (Voted _contentHash (msg_sender ctx) support);;
  y ← gets (λ s, yesVotes (article s _contentHash));
  n ← gets (λ s, noVotes (article s _contentHash));
  totalVotes ← checked_add y n;
  mv ← gets (λ s, minVotes (news s));
  (* [&&]: the deadline is only computed once the quorum test has passed *)
  due ← (if mv <=? totalVotes then
           c ← gets (λ s, createdAt (article s _contentHash));
           vp ← gets (λ s, votingPeriod (news s));
           deadline ← checked_add c vp;
           mret (deadline <=? block_timestamp ctx)
         else mret false);
  if due : bool then
    (* finalize simple majority *)
    y ← gets (λ s, yesVotes (article s _contentHash));
    n ← gets (λ s, noVotes (article s _contentHash));
    (if n <? y then modify (write_article _contentHash (set_status VerifiedTrue))
     else if y <? n then modify (write_article _contentHash (set_status MarkedFake))
     else modify (write_article _contentHash (set_status Disputed)));;
    modify (write_article _contentHash (set_finalized true));;
    st ← gets (λ s, status (article s _contentHash));
    emit (Finalized _contentHash st)
  else mret ().

(** The nine return values of [getArticle], in declaration order. *)
Definition getArticle (_contentHash : bytes32) : Tx Article :=
  a ← gets (λ s, article s _contentHash);
  mret (mkArticle (contentHash a) (uri a) (publisher a) (submitter a) (createdAt a)
                  (status a) (yesVotes a) (noVotes a) (finalized a)).

Definition setVotingParams (ctx : Ctx) (_votingPeriod _minVotes : uint256) : Tx unit :=
  onlyOwner nr_owner_of ctx;;
  modify (write_votingPeriod _votingPeriod);;
  modify (write_minVotes _minVotes).

(** ** Transactions on the ledger *)

Inductive Contract := ThePublisherRegistry | TheNewsRegistry.

(** Every externally callable function of the two contracts. *)
Inductive Call :=
| SubmitArticle (h : bytes32) (u : string) (p : address)
| Vote (h : bytes32) (support : bool)
| GetArticle (h : bytes32)
| SetVotingParams (vp mv : uint256)
| AddPublisher (p : address)
| RemovePublisher (p : address)
| TrustStatus (p : address)
| IsTrusted (p : address)
| TransferOwnership (c : Contract) (newOwner : address)
| RenounceOwnership (c : Contract).

Definition forget {A} (m : Tx A) : Tx unit := _ ← m; mret ().

Definition call (ctx : Ctx) (c : Call) : Tx unit :=
  match c with
  | SubmitArticle h u p => submitArticle ctx h u p
  | Vote h support => vote ctx h support
  | GetArticle h => forget (getArticle h)
  | SetVotingParams vp mv => setVotingParams ctx vp mv
  | AddPublisher p => addPublisher ctx p
  | RemovePublisher p => removePublisher ctx p
  | TrustStatus p => forget (trustStatus p)
  | IsTrusted p => forget (isTrusted_getter p)
  | TransferOwnership ThePublisherRegistry o =>
      transferOwnership pr_owner_of write_pr_owner ctx o
  | TransferOwnership TheNewsRegistry o =>
      transferOwnership nr_owner_of write_nr_owner ctx o
  | RenounceOwnership ThePublisherRegistry =>
      renounceOwnership pr_owner_of write_pr_owner ctx
  | RenounceOwnership TheNewsRegistry =>
      renounceOwnership nr_owner_of write_nr_owner ctx
  end.

(** Running a call as a transaction of its own: the event log starts empty. *)
Definition run {A} (m : Tx A) (s : Ledger) : outcome A := m s [].

(** The storage a transaction leaves behind: its writes when it finishes,
    the storage it started from when it reverts. *)
Definition commit {A} (m : Tx A) (s : Ledger) : Ledger :=
  match run m s with
  | Done _ s' _ => s'
  | Revert _ _ => s
  end.

Definition Transaction : Type := Ctx * Call.

Definition execute (t : Transaction) (s : Ledger) : Ledger :=
  commit (call (fst t) (snd t)) s.

Definition replay (ts : list Transaction) (s : Ledger) : Ledger :=
  fold_left (λ acc t, execute t acc) ts s.

(** Ledger clocks are strictly positive for every committed transition. *)
Definition valid_ctx (ctx : Ctx) : bool := 0 <? block_timestamp ctx.

Definition valid_trace (ts : list Transaction) : bool :=
  forallb (λ t, valid_ctx (fst t)) ts.

(** The ledger right after deployment ([scripts/deploy.js]): a fresh
    PublisherRegistry, and a NewsRegistry constructed with its address. *)
Definition genesis (pubDeployer newsDeployer : Ctx) (_votingPeriod _minVotes : uint256)
    : Ledger :=
  mkLedger (PublisherRegistry_constructor pubDeployer)
           (NewsRegistry_constructor newsDeployer _votingPeriod _minVotes).

(** ** Vocabulary of the properties *)

(** The existence test of the contract: [a.createdAt != 0]. *)
Definition recorded (s : Ledger) (h : bytes32) : bool :=
  negb (createdAt (article s h) =? 0).

(** The condition of the auto-verify branch of [submitArticle]. *)
Definition auto_verifies (s : Ledger) (p : address) : bool :=
  negb (p =? 0) && trusted s p.

(** The verdict rule in the specification's words: more yes than no is
    VerifiedTrue, more no than yes is MarkedFake, a tie is Disputed. *)
Definition verdict (y n : uint256) : Status :=
  if n <? y then VerifiedTrue else if y <? n then MarkedFake else Disputed.

(** Number of addresses [v] with [hasVoted[h][v] = true]. *)
Definition counted (s : Ledger) (h : bytes32) : nat :=
  size (filter (λ kv : address * bool, kv.2 = true) (voters s h)).

(** The counters of every article add up to its number of recorded voters. *)
Definition tally_matches (s : Ledger) : Prop :=
  ∀ h, yesVotes (article s h) + noVotes (article s h) = N.of_nat (counted s h).

(** A fingerprint without a record reads as the all-zero article. *)
Definition absent_is_blank (s : Ledger) : Prop :=
  ∀ h, createdAt (article s h) = 0 → article s h = zeroArticle.

Definition consistent (s : Ledger) : Prop :=
  absent_is_blank s ∧ tally_matches s.

(** What a successful [vote] does, field by field. *)
Record vote_effect (ctx : Ctx) (h : bytes32) (b : bool) (s s' : Ledger)
    (log : list Event) : Prop := {
  ve_exists : createdAt (article s h) ≠ 0;
  ve_open : finalized (article s h) = false;
  ve_fresh : voted s h (msg_sender ctx) = false;
  ve_yes : yesVotes (article s' h) = yesVotes (article s h) + (if b then 1 else 0);
  ve_no : noVotes (article s' h) = noVotes (article s h) + (if b then 0 else 1);
  ve_fin : finalized (article s' h) =
           (minVotes (news s) <=? yesVotes (article s' h) + noVotes (article s' h))
           && (createdAt (article s h) + votingPeriod (news s) <=? block_timestamp ctx);
  ve_status : status (article s' h) =
              if finalized (article s' h)
              then verdict (yesVotes (article s' h)) (noVotes (article s' h))
              else status (article s h);
  ve_meta : contentHash (article s' h) = contentHash (article s h)
            ∧ uri (article s' h) = uri (article s h)
            ∧ publisher (article s' h) = publisher (article s h)
            ∧ submitter (article s' h) = submitter (article s h)
            ∧ createdAt (article s' h) = createdAt (article s h);
  ve_others : ∀ h', h' ≠ h → article s' h' = article s h';
  ve_voters : voters s' h = <[msg_sender ctx := true]> (voters s h);
  ve_voters_others : ∀ h', h' ≠ h → voters s' h' = voters s h';
  ve_registry : registry s' = registry s;
  ve_params : nr_owner (news s') = nr_owner (news s)
              ∧ votingPeriod (news s') = votingPeriod (news s)
              ∧ minVotes (news s') = minVotes (news s);
  ve_log : log = Voted h (msg_sender ctx) b ::
                 (if finalized (article s' h)
                  then [Finalized h (status (article s' h))] else [])
}.

(** What a successful [submitArticle] does. *)
Record submit_effect (ctx : Ctx) (h : bytes32) (u : string) (p : address)
    (s s' : Ledger) (log : list Event) : Prop := {
  se_fresh : createdAt (article s h) = 0;
  se_article : article s' h =
               mkArticle h u p (msg_sender ctx) (block_timestamp ctx)
                 (if auto_verifies s p then VerifiedTrue else UnderReview)
                 (yesVotes (article s h)) (noVotes (article s h))
                 (auto_verifies s p || finalized (article s h));
  se_others : ∀ h', h' ≠ h → article s' h' = article s h';
  se_votes : hasVoted (news s') = hasVoted (news s);
  se_registry : registry s' = registry s;
  se_params : nr_owner (news s') = nr_owner (news s)
              ∧ votingPeriod (news s') = votingPeriod (news s)
              ∧ minVotes (news s') = minVotes (news s);
  se_log : log = if auto_verifies s p
                 then [PublisherAutoVerified h; Finalized h VerifiedTrue]
                 else [Submitted h (msg_sender ctx) u]
}.

(** A small ledger used to exercise the statements: deployed by address 1
    with [votingPeriod = 60] and [minVotes = 1] as in the deployment script,
    address 9 trusted, article 77 submitted by address 5 at time 1000 without
    a claimed publisher, then a yes vote by address 6 at time 1010. *)
Definition demo_genesis : Ledger := genesis (mkCtx 1 1) (mkCtx 1 1) 60 1.
Definition demo_setup : list Transaction :=
  [ (mkCtx 1 2, AddPublisher 9); (mkCtx 5 1000, SubmitArticle 77 "u" 0) ].
Definition demo_open : Ledger := replay demo_setup demo_genesis.
Definition demo_voted : Ledger := execute (mkCtx 6 1010, Vote 77 true) demo_open.
Definition demo_closed : Ledger := execute (mkCtx 7 1061, Vote 77 false) demo_voted.

(** Counting the two submission notifications in a call's log. *)
Definition is_auto_verified (e : Event) : bool :=
  match e with PublisherAutoVerified _ => true | _ => false end.
Definition is_submitted (e : Event) : bool :=
  match e with Submitted _ _ _ => true | _ => false end.
Definition count_events (f : Event → bool) (log : list Event) : nat :=
  length (List.filter f log).

(** How one transaction can touch the article and vote maps: not at all,
    as a successful vote, or as a successful submission. *)
Inductive step_view (t : Transaction) (s s' : Ledger) : Prop :=
| sv_frame :
    articles (news s') = articles (news s) →
    hasVoted (news s') = hasVoted (news s) → step_view t s s'
| sv_vote h b log :
    snd t = Vote h b → vote_effect (fst t) h b s s' log → step_view t s s'
| sv_submit h u p log :
    snd t = SubmitArticle h u p → submit_effect (fst t) h u p s s' log →
    step_view t s s'.

(** ** The chain log *)

(** The events a transaction adds to the chain log: those of its call when
    the call finishes, none when it reverts. *)
Definition emitted (t : Transaction) (s : Ledger) : list Event :=
  match run (call (fst t) (snd t)) s with
  | Done _ _ log => log
  | Revert _ _ => []
  end.

(** All events of a trace, in chain order. *)
Fixpoint history (ts : list Transaction) (s : Ledger) : list Event :=
  match ts with
  | [] => []
  | t :: ts' => emitted t s ++ history ts' (execute t s)
  end.

Definition is_finalized_for (h : bytes32) (e : Event) : bool :=
  match e with Finalized h' _ => h' =? h | _ => false end.

Definition is_voted_for (h : bytes32) (e : Event) : bool :=
  match e with Voted h' _ _ => h' =? h | _ => false end.

(** In every article the finalized flag is set exactly when the status has
    left UnderReview, and a stored record carries its own key. *)
Definition status_tracks_flag (s : Ledger) : Prop :=
  ∀ h, (finalized (article s h) = true ↔ status (article s h) ≠ UnderReview)
       ∧ (createdAt (article s h) ≠ 0 → contentHash (article s h) = h).

(** What one transaction leaves in the log, and what it wrote for it. *)
Inductive log_view (t : Transaction) (s : Ledger) : Prop :=
| lv_quiet :
    emitted t s = [] →
    articles (news (execute t s)) = articles (news s) →
    hasVoted (news (execute t s)) = hasVoted (news s) →
    isTrusted (registry (execute t s)) = isTrusted (registry s) →
    log_view t s
| lv_add p :
    emitted t s = [PublisherAdded p] → trusted s p = false →
    execute t s = write_isTrusted p true s → log_view t s
| lv_remove p :
    emitted t s = [PublisherRemoved p] → trusted s p = true →
    execute t s = write_isTrusted p false s → log_view t s
| lv_vote h b :
    vote_effect (fst t) h b s (execute t s) (emitted t s) → log_view t s
| lv_submit h u p :
    submit_effect (fst t) h u p s (execute t s) (emitted t s) → log_view t s.

Definition flag (b : bool) : nat := if b then 1%nat else 0%nat.

(** ** The deployment script ([scripts/deploy.js]) *)

(** The second address the script adds as a trusted publisher. *)
Definition SECOND_PUBLISHER : address := 0x90f79bf6eb2c4f870365e785982e1f101e93b906.

Inductive script_result :=
| Deployed (s : Ledger)
| Failed (e : Error).

(** [main]: deploy PublisherRegistry, deploy NewsRegistry with
    [votingPeriod = 60] and [minVotes = 1], then add the deployer and
    [SECOND_PUBLISHER] as trusted publishers.  All four transactions are sent
    by the deployer, at ledger times [t1] to [t4]; a transaction that reverts
    rejects the awaited promise, and the script ends with exit code 1. *)
Definition deploy_main (deployer : address) (t1 t2 t3 t4 : uint256) : script_result :=
  let pub := PublisherRegistry_constructor (mkCtx deployer t1) in
  let news := NewsRegistry_constructor (mkCtx deployer t2) 60 1 in
  match run (addPublisher (mkCtx deployer t3) deployer) (mkLedger pub news) with
  | Revert e _ => Failed e
  | Done _ s1 _ =>
      match run (addPublisher (mkCtx deployer t4) SECOND_PUBLISHER) s1 with
      | Revert e _ => Failed e
      | Done _ s2 _ => Deployed s2
      end
  end.

(** ** The trusted list of the admin panel ([PublisherAdmin.jsx], [load]) *)

(** An event as [queryFilter] returns it, with its position in the chain. *)
Record LogEntry := mkLogEntry {
  le_event : Event;
  blockNumber : N;
  logIndex : N
}.

(** [contract.queryFilter(contract.filters.PublisherAdded(), 0, "latest")] *)
Definition queryFilter_PublisherAdded (chain : list LogEntry) : list LogEntry :=
  List.filter (λ e, match le_event e with PublisherAdded _ => true | _ => false end) chain.

(** [contract.queryFilter(contract.filters.PublisherRemoved(), 0, "latest")] *)
Definition queryFilter_PublisherRemoved (chain : list LogEntry) : list LogEntry :=
  List.filter (λ e, match le_event e with PublisherRemoved _ => true | _ => false end) chain.

(** [e.args[0]] of the two registry events. *)
Definition args0 (e : Event) : address :=
  match e with
  | PublisherAdded p | PublisherRemoved p => p
  | _ => 0
  end.

Inductive EvtType := add | remove.

(** [{ type, addr, blockNumber, logIndex }] *)
Record Evt := mkEvt {
  evt_type : EvtType;
  evt_addr : address;
  evt_blockNumber : N;
  evt_logIndex : N
}.

Definition push_evt (ty : EvtType) (e : LogEntry) : Evt :=
  mkEvt ty (args0 (le_event e)) (blockNumber e) (logIndex e).

(** The comparator [a.blockNumber - b.blockNumber || a.logIndex - b.logIndex]. *)
Definition evt_compare (a b : Evt) : Z :=
  let d := (Z.of_N (evt_blockNumber a) - Z.of_N (evt_blockNumber b))%Z in
  if (d =? 0)%Z then (Z.of_N (evt_logIndex a) - Z.of_N (evt_logIndex b))%Z else d.

(** [a] may stand before [b] in the sorted array. *)
Definition evt_before (a b : Evt) : Prop := (evt_compare a b ≤ 0)%Z.

#[global] Instance evt_before_dec a b : Decision (evt_before a b) :=
  Z_le_dec (evt_compare a b) 0.

(** [evts.sort(comparator)], as a merge sort.  The events of a chain log
    have pairwise different positions, and on such input every sort that
    follows the comparator gives the same result. *)
Definition sort_evts (evts : list Evt) : list Evt := merge_sort evt_before evts.

(** A JavaScript [Map] from addresses to booleans: its entries in insertion
    order.  The source keys the map by the lower-cased hex form of the
    address, which is one-to-one with the address. *)
Definition jsmap_has (k : address) (m : list (address * bool)) : bool :=
  existsb (λ kv, kv.1 =? k) m.

(** [map.set(k, v)]: an existing key keeps its place, a new one goes last. *)
Definition jsmap_set (k : address) (v : bool) (m : list (address * bool))
    : list (address * bool) :=
  if jsmap_has k m
  then map (λ kv, if kv.1 =? k then (k, v) else kv) m
  else m ++ [(k, v)].

(** [map.delete(k)] *)
Definition jsmap_delete (k : address) (m : list (address * bool))
    : list (address * bool) :=
  List.filter (λ kv, negb (kv.1 =? k)) m.

(** [Array.from(map.keys())] *)
Definition jsmap_keys (m : list (address * bool)) : list address := map fst m.

(** The body of the loop over the sorted events. *)
Definition apply_evt (m : list (address * bool)) (e : Evt) : list (address * bool) :=
  match evt_type e with
  | add => jsmap_set (evt_addr e) true m
  | remove => jsmap_delete (evt_addr e) m
  end.

(** [load]: query both event kinds, tag and concatenate them, sort by chain
    position, replay them into a map, and list its keys. *)
Definition trustedList (chain : list LogEntry) : list address :=
  let added := queryFilter_PublisherAdded chain in
  let removed := queryFilter_PublisherRemoved chain in
  let evts := map (push_evt add) added ++ map (push_evt remove) removed in
  jsmap_keys (fold_left apply_evt (sort_evts evts) []).

(** Chain positions grow strictly along the log. *)
Definition position_lt (a b : LogEntry) : Prop :=
  blockNumber a < blockNumber b
  ∨ (blockNumber a = blockNumber b ∧ logIndex a < logIndex b).

Definition chain_ordered (chain : list LogEntry) : Prop :=
  StronglySorted position_lt chain.

(** One log entry per event of a history, one block per event. *)
Definition stamp (evs : list Event) : list LogEntry :=
  imap (λ i e, mkLogEntry e (N.of_nat i) 0) evs.

(** The registry events of the chain in chain order, tagged as [load] tags
    them. *)
Definition registry_evt (e : LogEntry) : option Evt :=
  match le_event e with
  | PublisherAdded _ => Some (push_evt add e)
  | PublisherRemoved _ => Some (push_evt remove e)
  | _ => None
  end.

Definition chain_evts (chain : list LogEntry) : list Evt := omap registry_evt chain.

(** The loop body of [load] on an untagged event; other events do nothing. *)
Definition apply_event (m : list (address * bool)) (e : Event) : list (address * bool) :=
  match e with
  | PublisherAdded p => jsmap_set p true m
  | PublisherRemoved p => jsmap_delete p m
  | _ => m
  end.

Definition evt_strict (a b : Evt) : Prop :=
  evt_blockNumber a < evt_blockNumber b
  ∨ (evt_blockNumber a = evt_blockNumber b ∧ evt_logIndex a < evt_logIndex b).

(** The map built by [load] lists exactly the trusted addresses, once each. *)
Definition directory_matches (m : list (address * bool)) (s : Ledger) : Prop :=
  NoDup (jsmap_keys m) ∧ ∀ a, a ∈ jsmap_keys m ↔ trusted s a = true.

(** ** Helpers of the web client *)

(** The number the ABI decoder hands to the client for a [Status]: the
    position of the member in the enum declaration. *)
Definition status_code (st : Status) : N :=
  match st with
  | UnderReview => 0
  | VerifiedTrue => 1
  | MarkedFake => 2
  | Disputed => 3
  end.

Definition status_name (st : Status) : string :=
  match st with
  | UnderReview => "UnderReview"
  | VerifiedTrue => "VerifiedTrue"
  | MarkedFake => "MarkedFake"
  | Disputed => "Disputed"
  end.

(** [statusToString] of [SubmitArticle.jsx] and [VoteArticle.jsx]: a switch
    on the number; the default case prints the number in decimal. *)
Definition statusToString (n : N) : string :=
  if n =? 0 then "UnderReview"
  else if n =? 1 then "VerifiedTrue"
  else if n =? 2 then "MarkedFake"
  else if n =? 3 then "Disputed"
  else "Unknown(" +:+ pretty n +:+ ")".

(** The label and the colour class of [StatusBadge] in [CheckStatus.jsx],
    two chains of conditionals on the same number. *)
Definition StatusBadge_label (s : N) : string :=
  if s =? 0 then "UnderReview"
  else if s =? 1 then "VerifiedTrue"
  else if s =? 2 then "MarkedFake"
  else if s =? 3 then "Disputed"
  else "Unknown(" +:+ pretty s +:+ ")".

Definition StatusBadge_cls (s : N) : string :=
  if s =? 1 then "success"
  else if s =? 2 then "danger"
  else if s =? 3 then "warning"
  else "secondary".

(** A JavaScript string as the list of its UTF-16 code units. *)
Definition js (s : string) : list N :=
  map Ascii.N_of_ascii (String.list_ascii_of_string s).

(** The one code unit of the ellipsis character. *)
Definition ELLIPSIS : N := 8230.

(** [h.slice(-end)]: the last [end] code units, and, since [-0] is [0], the
    whole string when [end] is zero. *)
Definition slice_from_end (e : nat) (h : list N) : list N :=
  if Nat.eqb e 0 then h else drop (length h - e) h.

(** [short(h, start, end)] of [BlockViewer.jsx]. *)
Definition short (h : list N) (start e : nat) : list N :=
  match h with
  | [] => []
  | _ =>
      if length h <=? start + e then h
      else take start h ++ [ELLIPSIS] ++ slice_from_end e h
  end%nat.

(** The character classes of the regular expression in [numberWithCommas]:
    [\d] and the word characters that decide [\B]. *)
Definition is_digit (c : N) : bool := (48 <=? c) && (c <=? 57).

Definition is_word (c : N) : bool :=
  is_digit c || ((65 <=? c) && (c <=? 90)) || ((97 <=? c) && (c <=? 122)) || (c =? 95).

Definition COMMA : N := 44.

(** Length of the run of digits a string starts with. *)
Fixpoint digit_run (s : list N) : nat :=
  match s with
  | c :: rest => if is_digit c then S (digit_run rest) else 0%nat
  | [] => 0%nat
  end.

(** The lookahead [(?=(\d{3})+(?!\d))]: some positive multiple of three
    digits follows, and no digit after them. *)
Definition groups_of_three_ahead (s : list N) : bool :=
  let r := digit_run s in negb (Nat.eqb r 0) && Nat.eqb (r mod 3) 0.

(** [String(n).replace(/\B(?=(\d{3})+(?!\d))/g, ",")] read from left to
    right: [prev_word] tells whether the code unit before the position is a
    word character; a comma goes in at every position that is not a word
    boundary and passes the lookahead. *)
Fixpoint insert_commas (prev_word : bool) (s : list N) : list N :=
  match s with
  | [] => []
  | c :: rest =>
      (if eqb prev_word (is_word c) && groups_of_three_ahead s then [COMMA] else [])
      ++ c :: insert_commas (is_word c) rest
  end.

Definition numberWithCommas (s : list N) : list N := insert_commas false s.

(** The tail of [computeSha256HexStrict]: every byte of the digest printed
    with [toString(16)], padded to two characters with a zero, and joined. *)
Definition hex_digit (d : N) : N := if d <? 10 then 48 + d else 87 + d.

Definition toString16 (b : N) : list N :=
  if b <? 16 then [hex_digit b] else [hex_digit (b / 16); hex_digit (b mod 16)].

Definition padStart2 (s : list N) : list N :=
  repeat 48 (2 - length s) ++ s.

Definition bytes_to_hex (bytes : list N) : list N :=
  concat (map (λ b, padStart2 (toString16 b)) bytes).

(** Reading lower-case hex back, two characters per byte. *)
Definition hex_value (c : N) : option N :=
  if (48 <=? c) && (c <=? 57) then Some (c - 48)
  else if (97 <=? c) && (c <=? 102) then Some (c - 87)
  else None.

Fixpoint hex_to_bytes (s : list N) : option (list N) :=
  match s with
  | [] => Some []
  | hi :: lo :: rest =>
      match hex_value hi, hex_value lo, hex_to_bytes rest with
      | Some a, Some b, Some bs => Some (16 * a + b :: bs)
      | _, _, _ => None
      end
  | _ => None
  end.



(** [toggleTx] of [BlockViewer.jsx] on the set of expanded transactions. *)
Definition toggleTx (hash : list N) (prev : gset (list N)) : gset (list N) :=
  if decide (hash ∈ prev) then prev ∖ {[ hash ]} else prev ∪ {[ hash ]}.

(** White space and line terminators of ECMAScript, the code units
    [String.prototype.trim] removes. *)
Definition is_js_space (c : N) : bool :=
  ((9 <=? c) && (c <=? 13)) || (c =? 32) || (c =? 160) || (c =? 5760)
  || ((8192 <=? c) && (c <=? 8202)) || (c =? 8232) || (c =? 8233)
  || (c =? 8239) || (c =? 8287) || (c =? 12288) || (c =? 65279).

Fixpoint trimStart (s : list N) : list N :=
  match s with
  | c :: rest => if is_js_space c then trimStart rest else s
  | [] => []
  end.

Definition trimEnd (s : list N) : list N := reverse (trimStart (reverse s)).

Definition trim (s : list N) : list N := trimEnd (trimStart s).

(** [h.startsWith("0x")] *)
Definition startsWith_0x (h : list N) : bool :=
  match h with
  | 48 :: 120 :: _ => true
  | _ => false
  end.

(** [normalizeHexInput] of [CheckStatus.jsx]. *)
Definition normalizeHexInput (raw : list N) : list N :=
  match raw with
  | [] => []
  | _ =>
      let h := trim raw in
      if startsWith_0x h then h else js "0x" ++ h
  end.

(** [precheckHash] of [SubmitArticle.jsx].  [chain] is what the provider
    reads: the ledger, or [None] when the read throws, which the [catch]
    turns into [null].  A read that returns gives [null] when the returned
    [createdAt] is zero and the returned record otherwise. *)
Definition precheckHash (chain : option Ledger) (hex : bytes32) : option Article :=
  match chain with
  | None => None
  | Some s =>
      match run (getArticle hex) s with
      | Done article _ _ => if createdAt article =? 0 then None else Some article
      | Revert _ _ => None
      end
  end.

(** The roles of [App.jsx] and the kind of alert a login attempt raises. *)
Inductive Role := RoleGuest | RolePublisher | RoleOwner.

Inductive AlertType := AlertWarning | AlertSuccess.

(** [isOwnerAddress] and [isTrustedPublisher] of [App.jsx]: reads of the
    PublisherRegistry; a provider that fails ([None]) makes both answer
    false.  Addresses are compared in lower case, that is, as addresses. *)
Definition isOwnerAddress (chain : option Ledger) (addr : address) : bool :=
  match chain with
  | Some s => pr_owner (registry s) =? addr
  | None => false
  end.

Definition isTrustedPublisher (chain : option Ledger) (addr : address) : bool :=
  match chain with
  | Some s => trusted s addr
  | None => false
  end.

(** [attemptSetRole]: the role shown afterwards and the alert raised, from
    the requested role, the connected wallet and the role shown before. *)
Definition attemptSetRole (requestedRole : Role) (connectedAddress : option address)
    (chain : option Ledger) (role : Role) : Role * option AlertType :=
  match requestedRole with
  | RoleGuest => (RoleGuest, None)
  | RolePublisher =>
      match connectedAddress with
      | None => (role, Some AlertWarning)
      | Some a =>
          if isTrustedPublisher chain a then (RolePublisher, Some AlertSuccess)
          else (role, Some AlertWarning)
      end
  | RoleOwner =>
      match connectedAddress with
      | None => (role, Some AlertWarning)
      | Some a =>
          if isOwnerAddress chain a then (RoleOwner, Some AlertSuccess)
          else (role, Some AlertWarning)
      end
  end.

(** ** Reading what was written *)

Lemma article_write_article_eq s h f :
  article (write_article h f s) h = f (article s h).
Proof. unfold article at 1, write_article; simpl. by rewrite lookup_insert_eq. Qed.

Lemma article_write_article_ne s h f h' :
  h ≠ h' → article (write_article h f s) h' = article s h'.
Proof.
  intros Hne. unfold article at 1, write_article; simpl.
  by rewrite lookup_insert_ne.
Qed.

Lemma article_write_hasVoted s h v b h' :
  article (write_hasVoted h v b s) h' = article s h'.
Proof. reflexivity. Qed.

Lemma voters_write_article s h f h' :
  voters (write_article h f s) h' = voters s h'.
Proof. reflexivity. Qed.

Lemma voters_write_hasVoted_eq s h v b :
  voters (write_hasVoted h v b s) h = <[v := b]> (voters s h).
Proof. unfold voters at 1, write_hasVoted; simpl. by rewrite lookup_insert_eq. Qed.

Lemma voters_write_hasVoted_ne s h v b h' :
  h ≠ h' → voters (write_hasVoted h v b s) h' = voters s h'.
Proof.
  intros Hne. unfold voters at 1, write_hasVoted; simpl.
  by rewrite lookup_insert_ne.
Qed.

Lemma trusted_write_isTrusted_eq s p b :
  trusted (write_isTrusted p b s) p = b.
Proof. unfold trusted, write_isTrusted; simpl. by rewrite lookup_insert_eq. Qed.

Lemma trusted_write_isTrusted_ne s p b q :
  p ≠ q → trusted (write_isTrusted p b s) q = trusted s q.
Proof.
  intros Hne. unfold trusted, write_isTrusted; simpl.
  by rewrite lookup_insert_ne.
Qed.

Create Rewrite HintDb ledger.
#[global] Hint Rewrite article_write_article_eq article_write_hasVoted
  voters_write_article voters_write_hasVoted_eq trusted_write_isTrusted_eq : ledger.
#[global] Hint Rewrite article_write_article_ne voters_write_hasVoted_ne
  trusted_write_isTrusted_ne using congruence : ledger.

(** Unfolds the monad so that a call becomes a tree of tests on the storage. *)
Ltac tx_unfold :=
  cbv [run commit mbind Tx_bind mret Tx_ret gets modify emit revert require
       checked_add onlyOwner forget isTrusted_getter].

Ltac rw_tests :=
  repeat match goal with
  | H : ?x = true |- context [?x] => rewrite H
  | H : ?x = false |- context [?x] => rewrite H
  end.

Ltac reads_in_hyps :=
  repeat match goal with
  | H : context [article _ _] |- _ => progress (autorewrite with ledger in H; simpl in H)
  end.

(** ** The effect of one call *)

Lemma vote_done ctx s h b s' log :
  run (vote ctx h b) s = Done () s' log → vote_effect ctx h b s s' log.
Proof.
  unfold vote. tx_unfold. intros H.
  destruct (createdAt (article s h) =? 0) eqn:E1; simpl in H; [discriminate|].
  destruct (finalized (article s h)) eqn:E2; simpl in H; [discriminate|].
  destruct (voted s h (msg_sender ctx)) eqn:E3; simpl in H; [discriminate|].
  apply N.eqb_neq in E1.
  repeat (case_match; simplify_eq); reads_in_hyps.
  all: split; try done; try (intros h' Hh'); autorewrite with ledger; simpl;
       rewrite ?E2; unfold verdict; rw_tests; try done; try lia.
Qed.

Lemma vote_not_found ctx s h b :
  createdAt (article s h) = 0 → run (vote ctx h b) s = Revert NotFound s.
Proof. intros H. unfold vote. tx_unfold. by rewrite H. Qed.

Lemma vote_already_finalized ctx s h b :
  createdAt (article s h) ≠ 0 → finalized (article s h) = true →
  run (vote ctx h b) s = Revert AlreadyFinalized s.
Proof.
  intros H1 H2. unfold vote. tx_unfold.
  apply N.eqb_neq in H1. rewrite H1; simpl. by rewrite H2.
Qed.

Lemma vote_duplicate ctx s h b :
  createdAt (article s h) ≠ 0 → finalized (article s h) = false →
  voted s h (msg_sender ctx) = true →
  run (vote ctx h b) s = Revert DuplicateVote s.
Proof.
  intros H1 H2 H3. unfold vote. tx_unfold.
  apply N.eqb_neq in H1. rewrite H1; simpl. rewrite H2; simpl. by rewrite H3.
Qed.

Lemma submit_done ctx s h u p s' log :
  run (submitArticle ctx h u p) s = Done () s' log →
  submit_effect ctx h u p s s' log.
Proof.
  unfold submitArticle. tx_unfold. intros H.
  destruct (createdAt (article s h) =? 0) eqn:E1; simpl in H; [|discriminate].
  apply N.eqb_eq in E1.
  assert (∀ f s0, trusted (write_article h f s0) p = trusted s0 p) as Ht by done.
  destruct (p =? 0) eqn:Ep; simpl in H.
  - simplify_eq. split; unfold auto_verifies; rewrite ?Ep; try done;
      try (intros h' Hh'); autorewrite with ledger; simpl; done.
  - rewrite !Ht in H. destruct (trusted s p) eqn:Et; simplify_eq.
    all: split; unfold auto_verifies; rewrite ?Ep, ?Et; try done;
      try (intros h' Hh'); autorewrite with ledger; simpl; done.
Qed.

Lemma submit_duplicate ctx s h u p :
  createdAt (article s h) ≠ 0 →
  run (submitArticle ctx h u p) s = Revert DuplicateSubmission s.
Proof.
  intros H. unfold submitArticle. tx_unfold.
  apply N.eqb_neq in H. by rewrite H.
Qed.

Lemma submit_fresh_runs ctx s h u p :
  createdAt (article s h) = 0 →
  ∃ s' log, run (submitArticle ctx h u p) s = Done () s' log.
Proof.
  intros H. unfold submitArticle. tx_unfold. rewrite H. simpl.
  repeat (case_match; simplify_eq); eauto.
Qed.

Lemma commit_done {A} (m : Tx A) s a s' log :
  run m s = Done a s' log → commit m s = s'.
Proof. unfold commit. by intros ->. Qed.

Lemma commit_revert {A} (m : Tx A) s e d :
  run m s = Revert e d → commit m s = s.
Proof. unfold commit. by intros ->. Qed.

Lemma addPublisher_run ctx s p :
  run (addPublisher ctx p) s =
  if decide (pr_owner (registry s) = msg_sender ctx) then
    if trusted s p then Revert AlreadyTrusted s
    else Done () (write_isTrusted p true s) [PublisherAdded p]
  else Revert (Unauthorized (msg_sender ctx)) s.
Proof.
  unfold addPublisher. tx_unfold. unfold pr_owner_of.
  destruct (decide _); [|done]. by destruct (trusted s p).
Qed.

Lemma removePublisher_run ctx s p :
  run (removePublisher ctx p) s =
  if decide (pr_owner (registry s) = msg_sender ctx) then
    if trusted s p then Done () (write_isTrusted p false s) [PublisherRemoved p]
    else Revert NotTrusted s
  else Revert (Unauthorized (msg_sender ctx)) s.
Proof.
  unfold removePublisher. tx_unfold. unfold pr_owner_of.
  destruct (decide _); [|done]. by destruct (trusted s p).
Qed.

Lemma setVotingParams_run ctx s vp mv :
  run (setVotingParams ctx vp mv) s =
  if decide (nr_owner (news s) = msg_sender ctx) then
    Done () (write_minVotes mv (write_votingPeriod vp s)) []
  else Revert (Unauthorized (msg_sender ctx)) s.
Proof.
  unfold setVotingParams. tx_unfold. unfold nr_owner_of.
  by destruct (decide _).
Qed.

Lemma getArticle_run s h :
  run (getArticle h) s = Done (article s h) s [].
Proof. unfold getArticle. tx_unfold. by destruct (article s h). Qed.

(** ** The effect of one transaction on articles and votes *)

Lemma article_frame s s' h :
  articles (news s') = articles (news s) → article s' h = article s h.
Proof. unfold article. by intros ->. Qed.

Lemma voters_frame s s' h :
  hasVoted (news s') = hasVoted (news s) → voters s' h = voters s h.
Proof. unfold voters. by intros ->. Qed.

Lemma execute_view t s : step_view t s (execute t s).
Proof.
  destruct t as [ctx c]. unfold execute, commit; simpl.
  destruct c as [h u p|h b|h|vp mv|p|p|p|p|[] o|[]]; simpl.
  - destruct (run (submitArticle ctx h u p) s) eqn:E;
      [destruct a; eapply sv_submit; eauto using submit_done | apply sv_frame; reflexivity].
  - destruct (run (vote ctx h b) s) eqn:E;
      [destruct a; eapply sv_vote; eauto using vote_done | apply sv_frame; reflexivity].
  - unfold forget. tx_unfold. apply sv_frame; reflexivity.
  - rewrite setVotingParams_run. case_decide; apply sv_frame; reflexivity.
  - rewrite addPublisher_run.
    destruct (decide _); [destruct (trusted s p)|]; apply sv_frame; reflexivity.
  - rewrite removePublisher_run.
    destruct (decide _); [destruct (trusted s p)|]; apply sv_frame; reflexivity.
  - unfold forget, trustStatus. tx_unfold. apply sv_frame; reflexivity.
  - unfold forget. tx_unfold. apply sv_frame; reflexivity.
  - unfold transferOwnership. tx_unfold.
    repeat (case_match; simplify_eq); apply sv_frame; reflexivity.
  - unfold transferOwnership. tx_unfold.
    repeat (case_match; simplify_eq); apply sv_frame; reflexivity.
  - unfold renounceOwnership. tx_unfold.
    repeat (case_match; simplify_eq); apply sv_frame; reflexivity.
  - unfold renounceOwnership. tx_unfold.
    repeat (case_match; simplify_eq); apply sv_frame; reflexivity.
Qed.

(** A record that exists keeps its identity fields through any transaction. *)
Lemma execute_keeps_record t s h :
  createdAt (article s h) ≠ 0 →
  createdAt (article (execute t s) h) = createdAt (article s h)
  ∧ submitter (article (execute t s) h) = submitter (article s h).
Proof.
  intros Hc. destruct (execute_view t s) as [Ha Hv|h' b log _ E|h' u p log _ E].
  - by rewrite (article_frame _ _ _ Ha).
  - destruct (decide (h = h')) as [->|Hne].
    + destruct (ve_meta _ _ _ _ _ _ E) as (_ & _ & _ & -> & ->). done.
    + by rewrite (ve_others _ _ _ _ _ _ E).
  - destruct (decide (h = h')) as [->|Hne].
    + by destruct Hc; apply (se_fresh _ _ _ _ _ _ _ E).
    + by rewrite (se_others _ _ _ _ _ _ _ E).
Qed.

(** A finalized record and its voter set are frozen. *)
Lemma execute_keeps_finalized t s h :
  createdAt (article s h) ≠ 0 → finalized (article s h) = true →
  article (execute t s) h = article s h ∧ voters (execute t s) h = voters s h.
Proof.
  intros Hc Hf. destruct (execute_view t s) as [Ha Hv|h' b log _ E|h' u p log _ E].
  - by rewrite (article_frame _ _ _ Ha), (voters_frame _ _ _ Hv).
  - destruct (decide (h = h')) as [->|Hne].
    + pose proof (ve_open _ _ _ _ _ _ E). congruence.
    + by rewrite (ve_others _ _ _ _ _ _ E), (ve_voters_others _ _ _ _ _ _ E).
  - destruct (decide (h = h')) as [->|Hne].
    + by destruct Hc; apply (se_fresh _ _ _ _ _ _ _ E).
    + rewrite (se_others _ _ _ _ _ _ _ E) by done.
      by rewrite (voters_frame _ _ _ (se_votes _ _ _ _ _ _ _ E)).
Qed.

(** A vote record, once written, stays. *)
Lemma execute_keeps_voted t s h v :
  voted s h v = true → voted (execute t s) h v = true.
Proof.
  intros Hv. unfold voted in *.
  destruct (execute_view t s) as [_ Hh|h' b log _ E|h' u p log _ E].
  - by rewrite (voters_frame _ _ _ Hh).
  - destruct (decide (h = h')) as [->|Hne].
    + rewrite (ve_voters _ _ _ _ _ _ E).
      destruct (decide (msg_sender (fst t) = v)) as [->|Hv'].
      * by rewrite lookup_insert_eq.
      * by rewrite lookup_insert_ne.
    + by rewrite (ve_voters_others _ _ _ _ _ _ E).
  - by rewrite (voters_frame _ _ _ (se_votes _ _ _ _ _ _ _ E)).
Qed.

(** ** Counting vote records *)

Lemma counted_frame s s' h : voters s' h = voters s h → counted s' h = counted s h.
Proof. unfold counted. by intros ->. Qed.

Lemma counted_after_vote s s' h v :
  voters s' h = <[v := true]> (voters s h) → voted s h v = false →
  counted s' h = S (counted s h).
Proof.
  intros Hs Hv. unfold counted. rewrite Hs.
  rewrite map_filter_insert_True by done.
  apply map_size_insert_None, map_lookup_filter_None.
  unfold voted in Hv.
  destruct (voters s h !! v) as [x|] eqn:E; [right|by left].
  intros y [= <-]. simpl in *. congruence.
Qed.

(** ** Replaying traces *)

Lemma replay_cons t ts s : replay (t :: ts) s = replay ts (execute t s).
Proof. reflexivity. Qed.

Lemma replay_preserves (P : Ledger → Prop) :
  (∀ t s, P s → P (execute t s)) → ∀ ts s, P s → P (replay ts s).
Proof.
  intros Hstep ts. induction ts as [|t ts IH]; intros s Hs; [done|].
  rewrite replay_cons. by apply IH, Hstep.
Qed.

Lemma replay_preserves_valid (P : Ledger → Prop) :
  (∀ t s, valid_ctx (fst t) = true → P s → P (execute t s)) →
  ∀ ts s, valid_trace ts = true → P s → P (replay ts s).
Proof.
  intros Hstep ts. induction ts as [|t ts IH]; intros s Hv Hs; [done|].
  simpl in Hv. apply andb_true_iff in Hv as [Ht Hv].
  rewrite replay_cons. by apply IH; [|apply Hstep].
Qed.

Lemma replay_keeps_record ts s h :
  createdAt (article s h) ≠ 0 →
  createdAt (article (replay ts s) h) = createdAt (article s h)
  ∧ submitter (article (replay ts s) h) = submitter (article s h).
Proof.
  revert s. induction ts as [|t ts IH]; intros s Hc; [done|].
  rewrite replay_cons.
  destruct (execute_keeps_record t s h Hc) as [Hc' Hs'].
  destruct (IH (execute t s)) as [-> ->]; [congruence|done].
Qed.

Lemma replay_keeps_finalized ts s h :
  createdAt (article s h) ≠ 0 → finalized (article s h) = true →
  article (replay ts s) h = article s h ∧ voters (replay ts s) h = voters s h.
Proof.
  revert s. induction ts as [|t ts IH]; intros s Hc Hf; [done|].
  rewrite replay_cons.
  destruct (execute_keeps_finalized t s h Hc Hf) as [Ha Hv].
  destruct (IH (execute t s)) as [-> ->]; [congruence..|done].
Qed.

Lemma replay_keeps_voted ts s h v :
  voted s h v = true → voted (replay ts s) h v = true.
Proof.
  apply (replay_preserves (λ s, voted s h v = true)).
  intros t s0. apply execute_keeps_voted.
Qed.

(** ** Consistency of every reachable ledger *)

Lemma genesis_consistent d1 d2 vp mv : consistent (genesis d1 d2 vp mv).
Proof. split; intros h; done. Qed.

Lemma execute_consistent t s :
  valid_ctx (fst t) = true → consistent s → consistent (execute t s).
Proof.
  intros Hval [Hblank Htally].
  destruct (execute_view t s) as [Ha Hv|h' b log _ E|h' u p log _ E].
  - split; intros h.
    + rewrite (article_frame _ _ _ Ha). apply Hblank.
    + rewrite (article_frame _ _ _ Ha), (counted_frame s _ h); [apply Htally|].
      by apply voters_frame.
  - destruct E. split; intros h.
    + destruct (decide (h = h')) as [->|Hne].
      * destruct ve_meta0 as (_ & _ & _ & _ & ->). done.
      * rewrite ve_others0 by done. apply Hblank.
    + destruct (decide (h = h')) as [->|Hne].
      * rewrite ve_yes0, ve_no0.
        rewrite (counted_after_vote s _ h' (msg_sender (fst t))) by done.
        pose proof (Htally h'). destruct b; lia.
      * rewrite ve_others0, (counted_frame s _ h) by auto. apply Htally.
  - destruct E. split; intros h.
    + destruct (decide (h = h')) as [->|Hne].
      * rewrite se_article0; simpl. unfold valid_ctx in Hval.
        apply N.ltb_lt in Hval. lia.
      * rewrite se_others0 by done. apply Hblank.
    + rewrite (counted_frame s _ h) by by apply voters_frame.
      destruct (decide (h = h')) as [->|Hne].
      * rewrite se_article0; simpl. apply Htally.
      * rewrite se_others0 by done. apply Htally.
Qed.

Lemma replay_consistent ts s :
  valid_trace ts = true → consistent s → consistent (replay ts s).
Proof. apply replay_preserves_valid, execute_consistent. Qed.

Lemma reachable_consistent ts d1 d2 vp mv :
  valid_trace ts = true → consistent (replay ts (genesis d1 d2 vp mv)).
Proof. intros Hv. apply replay_consistent; [done|apply genesis_consistent]. Qed.

Lemma consistent_finalized_recorded s h :
  consistent s → finalized (article s h) = true → createdAt (article s h) ≠ 0.
Proof. intros [Hb _] Hf Hc. rewrite (Hb h Hc) in Hf. done. Qed.

(** ** Finalization by a vote *)

(** C1: for every successful [vote(h, support)], the article is finalized by
    that call (it was open before, is finalized after, and the Finalized
    notification is in the call's log) if and only if, with the vote counted,
    [yesVotes + noVotes >= minVotes] and the ledger time is at least
    [createdAt + votingPeriod].  In particular quorum before the window has
    elapsed does not finalize, and an elapsed window without quorum does not
    finalize. *)
Theorem vote_finalizes_iff_quorum_and_window ctx s h support s' log :
  run (vote ctx h support) s = Done () s' log →
  let a' := article s' h in
  finalized (article s h) = false
  ∧ (finalized a' = true ↔
       minVotes (news s') ≤ yesVotes a' + noVotes a'
       ∧ createdAt a' + votingPeriod (news s') ≤ block_timestamp ctx)
  ∧ (block_timestamp ctx < createdAt a' + votingPeriod (news s') →
       finalized a' = false)
  ∧ (yesVotes a' + noVotes a' < minVotes (news s') → finalized a' = false)
  ∧ (In (Finalized h (status a')) log ↔ finalized a' = true).
Proof.
  intros Hrun a'. destruct (vote_done _ _ _ _ _ _ Hrun).
  destruct ve_meta0 as (_ & _ & _ & _ & Hc).
  destruct ve_params0 as (_ & Hvp & Hmv).
  fold a' in ve_fin0, ve_log0, ve_yes0, ve_no0, Hc.
  rewrite Hc, Hvp, Hmv.
  assert (finalized a' = true ↔
          minVotes (news s) ≤ yesVotes a' + noVotes a'
          ∧ createdAt (article s h) + votingPeriod (news s) ≤ block_timestamp ctx)
    as Hiff.
  { rewrite ve_fin0, andb_true_iff, !N.leb_le. done. }
  split; [done|]. split; [done|].
  split; [|split].
  - intros Hlt. apply not_true_is_false. intros Hf. apply Hiff in Hf. lia.
  - intros Hlt. apply not_true_is_false. intros Hf. apply Hiff in Hf. lia.
  - rewrite ve_log0. destruct (finalized a'); simpl; split; intros H;
      try done; try tauto.
    destruct H as [H|[]]. discriminate.
Qed.

Lemma vote_finalizes_iff_quorum_and_window_witness :
  finalized (article demo_voted 77) = false
  ∧ finalized (article demo_closed 77) = true.
Proof.
  assert (run (vote (mkCtx 7 1061) 77 false) demo_voted
          = Done () demo_closed [Voted 77 7 false; Finalized 77 Disputed]) as Hrun
    by (vm_compute; reflexivity).
  destruct (vote_finalizes_iff_quorum_and_window _ _ _ _ _ _ Hrun)
    as (Hopen & Hiff & _).
  split; [exact Hopen|]. apply Hiff. vm_compute. split; discriminate.
Defined.

(** The time gate of the specification's example: [minVotes = 1],
    [votingPeriod = 60], article created at 1000.  The vote at 1010 leaves
    the article open, the next vote, from another address at 1061, closes it. *)
Example time_gate_first_vote :
  run (vote (mkCtx 6 1010) 77 true) demo_open
  = Done () demo_voted [Voted 77 6 true]
  ∧ finalized (article demo_voted 77) = false.
Proof. split; vm_compute; reflexivity. Qed.

Example time_gate_second_vote :
  execute (mkCtx 7 1061, Vote 77 false) demo_voted = demo_closed
  ∧ finalized (article demo_closed 77) = true.
Proof. split; vm_compute; reflexivity. Qed.

(** C2: whenever a vote call finalizes an article, the final status is the
    plurality of the counters at that moment: more yes than no gives
    VerifiedTrue, more no than yes gives MarkedFake, a tie gives Disputed. *)
Theorem finalizing_vote_sets_plurality_verdict ctx s h support s' log :
  run (vote ctx h support) s = Done () s' log →
  finalized (article s' h) = true →
  let a' := article s' h in
  (noVotes a' < yesVotes a' → status a' = VerifiedTrue)
  ∧ (yesVotes a' < noVotes a' → status a' = MarkedFake)
  ∧ (yesVotes a' = noVotes a' → status a' = Disputed)
  ∧ status a' = verdict (yesVotes a') (noVotes a')
  ∧ In (Finalized h (verdict (yesVotes a') (noVotes a'))) log.
Proof.
  intros Hrun Hfin a'. destruct (vote_done _ _ _ _ _ _ Hrun).
  fold a' in ve_status0, ve_log0, Hfin.
  rewrite Hfin in ve_status0, ve_log0.
  rewrite ve_log0, ve_status0. unfold verdict.
  repeat split; try (intros Hc).
  - apply N.ltb_lt in Hc. by rewrite Hc.
  - assert ((noVotes a' <? yesVotes a') = false) as -> by (apply N.ltb_ge; lia).
    apply N.ltb_lt in Hc. by rewrite Hc.
  - rewrite Hc, N.ltb_irrefl. done.
  - simpl. tauto.
Qed.

Lemma finalizing_vote_sets_plurality_verdict_witness :
  status (article demo_closed 77) = Disputed.
Proof.
  assert (run (vote (mkCtx 7 1061) 77 false) demo_voted
          = Done () demo_closed [Voted 77 7 false; Finalized 77 Disputed]) as Hrun
    by (vm_compute; reflexivity).
  assert (finalized (article demo_closed 77) = true) as Hfin
    by (vm_compute; reflexivity).
  destruct (finalizing_vote_sets_plurality_verdict _ _ _ _ _ _ Hrun Hfin)
    as (_ & _ & Htie & _).
  apply Htie. vm_compute. reflexivity.
Defined.

(** The verdict examples of the specification, each reached by votes cast
    inside the window and one last vote after it. *)
Example verdict_three_to_one :
  status (article (replay [ (mkCtx 6 1010, Vote 77 true); (mkCtx 7 1020, Vote 77 true);
                            (mkCtx 8 1030, Vote 77 false); (mkCtx 9 1061, Vote 77 true) ]
                          demo_open) 77) = VerifiedTrue.
Proof. vm_compute. reflexivity. Qed.

Example verdict_one_to_three :
  status (article (replay [ (mkCtx 6 1010, Vote 77 false); (mkCtx 7 1020, Vote 77 true);
                            (mkCtx 8 1030, Vote 77 false); (mkCtx 9 1061, Vote 77 false) ]
                          demo_open) 77) = MarkedFake.
Proof. vm_compute. reflexivity. Qed.

Example verdict_two_to_two :
  status (article (replay [ (mkCtx 6 1010, Vote 77 false); (mkCtx 7 1020, Vote 77 true);
                            (mkCtx 8 1030, Vote 77 false); (mkCtx 9 1061, Vote 77 true) ]
                          demo_open) 77) = Disputed.
Proof. vm_compute. reflexivity. Qed.

(** ** Submission *)

(** C3: in every reachable ledger, for a fingerprint [h] without a record,
    [submitArticle(h, uri, P)] with a non-empty [P] that the registry trusts
    succeeds and leaves the article finalized with status VerifiedTrue, both
    counters zero and the vote records untouched; with the empty address the
    article is not auto-finalized; and every successful submission emits
    exactly one of PublisherAutoVerified and Submitted. *)
Theorem trusted_submit_auto_verifies ts d1 d2 vp mv ctx h u p :
  valid_trace ts = true →
  let s := replay ts (genesis d1 d2 vp mv) in
  recorded s h = false →
  (p ≠ 0 → trusted s p = true →
     ∃ s', run (submitArticle ctx h u p) s
           = Done () s' [PublisherAutoVerified h; Finalized h VerifiedTrue]
       ∧ finalized (article s' h) = true
       ∧ status (article s' h) = VerifiedTrue
       ∧ yesVotes (article s' h) = 0 ∧ noVotes (article s' h) = 0
       ∧ hasVoted (news s') = hasVoted (news s)
       ∧ counted s' h = 0%nat)
  ∧ (p = 0 → ∃ s', run (submitArticle ctx h u p) s
                   = Done () s' [Submitted h (msg_sender ctx) u]
               ∧ finalized (article s' h) = false
               ∧ status (article s' h) = UnderReview)
  ∧ (∃ s' log, run (submitArticle ctx h u p) s = Done () s' log
       ∧ (count_events is_auto_verified log + count_events is_submitted log = 1)%nat).
Proof.
  intros Hval s Hrec.
  assert (consistent s) as [Hblank Htally] by by apply reachable_consistent.
  assert (createdAt (article s h) = 0) as Hc.
  { unfold recorded in Hrec. apply negb_false_iff in Hrec. by apply N.eqb_eq. }
  pose proof (Hblank h Hc) as Hzero.
  destruct (submit_fresh_runs ctx s h u p Hc) as (s' & log & Hrun).
  destruct (submit_done _ _ _ _ _ _ _ Hrun).
  rewrite Hzero in se_article0; simpl in se_article0.
  split; [|split].
  - intros Hp Ht.
    assert (auto_verifies s p = true) as Hauto.
    { unfold auto_verifies. apply N.eqb_neq in Hp. by rewrite Hp, Ht. }
    rewrite Hauto in se_article0, se_log0. subst log.
    exists s'. rewrite se_article0; simpl. repeat split; try done.
    rewrite (counted_frame s s' h) by by apply voters_frame.
    pose proof (Htally h) as Hh. rewrite Hzero in Hh; simpl in Hh. lia.
  - intros ->. unfold auto_verifies in *; simpl in *. subst log.
    exists s'. by rewrite se_article0.
  - exists s', log. split; [done|]. rewrite se_log0.
    by destruct (auto_verifies s p).
Qed.

Lemma trusted_submit_auto_verifies_witness :
  ∃ s', run (submitArticle (mkCtx 5 1000) 78 "v" 9) demo_open
        = Done () s' [PublisherAutoVerified 78; Finalized 78 VerifiedTrue]
    ∧ finalized (article s' 78) = true
    ∧ status (article s' 78) = VerifiedTrue.
Proof.
  destruct (trusted_submit_auto_verifies demo_setup (mkCtx 1 1) (mkCtx 1 1) 60 1
              (mkCtx 5 1000) 78 "v" 9) as (Hauto & _).
  - vm_compute. reflexivity.
  - vm_compute. reflexivity.
  - destruct Hauto as (s' & Hrun & Hf & Hs & _).
    + discriminate.
    + vm_compute. reflexivity.
    + exists s'. auto.
Defined.

(** C4: after a successful [submitArticle(h, ...)] at a positive ledger time,
    whatever transactions follow, every further [submitArticle(h, ...)] by
    any caller reverts with "Already submitted" before writing anything, and
    the record still carries the first submitter and creation time. *)
Theorem resubmission_is_rejected ctx s h u p s1 log ts ctx' u' p' :
  valid_ctx ctx = true →
  run (submitArticle ctx h u p) s = Done () s1 log →
  let s2 := replay ts s1 in
  run (submitArticle ctx' h u' p') s2 = Revert DuplicateSubmission s2
  ∧ execute (ctx', SubmitArticle h u' p') s2 = s2
  ∧ recorded s2 h = true
  ∧ submitter (article s2 h) = msg_sender ctx
  ∧ createdAt (article s2 h) = block_timestamp ctx.
Proof.
  intros Hval Hrun s2. destruct (submit_done _ _ _ _ _ _ _ Hrun).
  assert (createdAt (article s1 h) = block_timestamp ctx
          ∧ submitter (article s1 h) = msg_sender ctx) as [Hc Hs]
    by by rewrite se_article0.
  assert (createdAt (article s1 h) ≠ 0) as Hne.
  { unfold valid_ctx in Hval. apply N.ltb_lt in Hval. lia. }
  destruct (replay_keeps_record ts s1 h Hne) as [Hc2 Hs2]. fold s2 in Hc2, Hs2.
  assert (createdAt (article s2 h) ≠ 0) as Hne2 by congruence.
  pose proof (submit_duplicate ctx' s2 h u' p' Hne2) as Hdup.
  repeat split; try congruence.
  - unfold execute; simpl. by rewrite (commit_revert _ _ _ _ Hdup).
  - unfold recorded. apply N.eqb_neq in Hne2. by rewrite Hne2.
Qed.

Lemma resubmission_is_rejected_witness :
  run (submitArticle (mkCtx 8 2000) 77 "w" 9) demo_closed
  = Revert DuplicateSubmission demo_closed
  ∧ submitter (article demo_closed 77) = 5
  ∧ createdAt (article demo_closed 77) = 1000.
Proof.
  destruct (resubmission_is_rejected (mkCtx 5 1000)
              (execute (mkCtx 1 2, AddPublisher 9) demo_genesis) 77 "u" 0
              demo_open [Submitted 77 5 "u"]
              [ (mkCtx 6 1010, Vote 77 true); (mkCtx 7 1061, Vote 77 false) ]
              (mkCtx 8 2000) "w" 9) as (Hdup & _ & _ & Hs & Hc).
  - vm_compute. reflexivity.
  - vm_compute. reflexivity.
  - split; [exact Hdup|split; [exact Hs|exact Hc]].
Defined.

(** The positive ledger clock is what makes [createdAt] an existence test:
    a submission stamped with time 0 would leave [createdAt = 0] and read as
    absent. *)
Example zero_clock_leaves_no_mark :
  recorded (execute (mkCtx 5 0, SubmitArticle 78 "v" 0) demo_open) 78 = false.
Proof. vm_compute. reflexivity. Qed.

(** ** Voting *)

(** C5, amended: [vote] fails with "Not submitted" when [h] has no record,
    with "Already finalized" when the record is finalized, whether or not
    the caller has voted on it, and with "Already voted" when the caller
    has a vote record for [h] and the record is not finalized; a failed vote
    writes nothing; a successful vote records the caller and adds one to
    exactly one counter; and after a successful vote every later vote on
    [h] from the same address fails, with "Already finalized" once the
    article is finalized and with "Already voted" until then. *)
Theorem one_vote_per_voter ctx s h support :
  (recorded s h = false → run (vote ctx h support) s = Revert NotFound s)
  ∧ (recorded s h = true → finalized (article s h) = true →
       run (vote ctx h support) s = Revert AlreadyFinalized s)
  ∧ (recorded s h = true → finalized (article s h) = false →
       voted s h (msg_sender ctx) = true →
       run (vote ctx h support) s = Revert DuplicateVote s)
  ∧ (∀ e d, run (vote ctx h support) s = Revert e d →
       execute (ctx, Vote h support) s = s)
  ∧ (∀ s' log, run (vote ctx h support) s = Done () s' log →
       voted s h (msg_sender ctx) = false
       ∧ voted s' h (msg_sender ctx) = true
       ∧ yesVotes (article s' h) = yesVotes (article s h) + (if support then 1 else 0)
       ∧ noVotes (article s' h) = noVotes (article s h) + (if support then 0 else 1)
       ∧ ∀ ts ctx' support', msg_sender ctx' = msg_sender ctx →
           let s2 := replay ts s' in
           run (vote ctx' h support') s2
           = Revert (if finalized (article s2 h) then AlreadyFinalized
                     else DuplicateVote) s2
           ∧ execute (ctx', Vote h support') s2 = s2).
Proof.
  assert (∀ x, recorded x h = true → createdAt (article x h) ≠ 0) as Hrec.
  { intros x Hx. unfold recorded in Hx. apply negb_true_iff in Hx.
    by apply N.eqb_neq. }
  split; [|split; [|split; [|split]]].
  - intros Hx. apply vote_not_found. unfold recorded in Hx.
    apply negb_false_iff in Hx. by apply N.eqb_eq.
  - intros Hx Hf. by apply vote_already_finalized; [apply Hrec|].
  - intros Hx Hf Hv. by apply vote_duplicate; [apply Hrec| |].
  - intros e d Hrun. unfold execute; simpl. by rewrite (commit_revert _ _ _ _ Hrun).
  - intros s' log Hrun. destruct (vote_done _ _ _ _ _ _ Hrun).
    assert (voted s' h (msg_sender ctx) = true) as Hv'.
    { unfold voted. by rewrite ve_voters0, lookup_insert_eq. }
    do 4 (split; [done|]).
    intros ts ctx' support' Hsame s2.
    assert (voted s2 h (msg_sender ctx') = true) as Hv2.
    { rewrite Hsame. by apply replay_keeps_voted. }
    assert (createdAt (article s2 h) ≠ 0) as Hc2.
    { destruct ve_meta0 as (_ & _ & _ & _ & Hc).
      destruct (replay_keeps_record ts s' h) as [Hk _]; [congruence|].
      fold s2 in Hk. congruence. }
    destruct (finalized (article s2 h)) eqn:Hf.
    + pose proof (vote_already_finalized ctx' s2 h support' Hc2 Hf) as Hr.
      split; [done|]. unfold execute; simpl.
      by rewrite (commit_revert _ _ _ _ Hr).
    + pose proof (vote_duplicate ctx' s2 h support' Hc2 Hf Hv2) as Hr.
      split; [done|]. unfold execute; simpl.
      by rewrite (commit_revert _ _ _ _ Hr).
Qed.

Lemma one_vote_per_voter_witness :
  run (vote (mkCtx 6 1020) 77 false) demo_voted = Revert DuplicateVote demo_voted
  ∧ yesVotes (article demo_voted 77) = 1
  ∧ run (vote (mkCtx 6 2000) 77 false) demo_closed
    = Revert AlreadyFinalized demo_closed.
Proof.
  destruct (one_vote_per_voter (mkCtx 6 1010) demo_open 77 true)
    as (_ & _ & _ & _ & Hdone).
  destruct (one_vote_per_voter (mkCtx 6 1020) demo_voted 77 false)
    as (_ & _ & Hdup & _).
  destruct (Hdone demo_voted [Voted 77 6 true]) as (_ & _ & Hy & _ & Hlater);
    [vm_compute; reflexivity|].
  split; [|split].
  - apply Hdup; vm_compute; reflexivity.
  - rewrite Hy. vm_compute. reflexivity.
  - destruct (Hlater [ (mkCtx 7 1061, Vote 77 false) ] (mkCtx 6 2000) false)
      as [Hr _]; [reflexivity|].
    exact Hr.
Defined.

(** The claim as first worded, "Already voted" whenever the caller has a
    vote record, fails on a finalized article: in [demo_closed] address 7
    has voted on article 77, the article is finalized, and a further vote
    from address 7 is answered "Already finalized". *)
Lemma voted_on_finalized_is_not_DuplicateVote :
  recorded demo_closed 77 = true
  ∧ voted demo_closed 77 7 = true
  ∧ run (vote (mkCtx 7 2000) 77 true) demo_closed
    = Revert AlreadyFinalized demo_closed
  ∧ ¬ (∃ d, run (vote (mkCtx 7 2000) 77 true) demo_closed = Revert DuplicateVote d).
Proof.
  assert (run (vote (mkCtx 7 2000) 77 true) demo_closed
          = Revert AlreadyFinalized demo_closed) as Hr by (vm_compute; reflexivity).
  split; [vm_compute; reflexivity|]. split; [vm_compute; reflexivity|].
  split; [exact Hr|]. intros [d Hd]. rewrite Hr in Hd. discriminate Hd.
Qed.

(** C6: in every reachable ledger, once an article is finalized it stays
    finalized with the same status through any later transactions, and
    every later [vote] on it reverts with "Already finalized" without
    writing anything. *)
Theorem finalization_is_monotone ts0 d1 d2 vp mv h ts ctx support :
  valid_trace ts0 = true →
  let s := replay ts0 (genesis d1 d2 vp mv) in
  finalized (article s h) = true →
  let s2 := replay ts s in
  finalized (article s2 h) = true
  ∧ status (article s2 h) = status (article s h)
  ∧ article s2 h = article s h
  ∧ run (vote ctx h support) s2 = Revert AlreadyFinalized s2
  ∧ execute (ctx, Vote h support) s2 = s2.
Proof.
  intros Hval s Hfin s2.
  assert (consistent s) as Hcons by by apply reachable_consistent.
  pose proof (consistent_finalized_recorded s h Hcons Hfin) as Hc.
  destruct (replay_keeps_finalized ts s h Hc Hfin) as [Ha _]. fold s2 in Ha.
  assert (run (vote ctx h support) s2 = Revert AlreadyFinalized s2) as Hr.
  { apply vote_already_finalized; by rewrite Ha. }
  rewrite Ha. repeat split; try done.
  unfold execute; simpl. by rewrite (commit_revert _ _ _ _ Hr).
Qed.

Lemma finalization_is_monotone_witness :
  let later := [ (mkCtx 8 2000, Vote 77 true); (mkCtx 8 2001, SubmitArticle 77 "w" 9) ] in
  status (article (replay later demo_closed) 77) = Disputed
  ∧ run (vote (mkCtx 9 3000) 77 true) (replay later demo_closed)
    = Revert AlreadyFinalized (replay later demo_closed).
Proof.
  intros later.
  destruct (finalization_is_monotone
              (demo_setup ++ [ (mkCtx 6 1010, Vote 77 true); (mkCtx 7 1061, Vote 77 false) ])
              (mkCtx 1 1) (mkCtx 1 1) 60 1 77 later (mkCtx 9 3000) true)
    as (_ & Hs & _ & Hr & _).
  - vm_compute. reflexivity.
  - vm_compute. reflexivity.
  - split; [|exact Hr]. etransitivity; [exact Hs|]. vm_compute. reflexivity.
Defined.

(** ** Administration *)

(** C7: [addPublisher], [removePublisher] and [setVotingParams], called by
    anyone but the current owner of the contract they belong to, revert with
    Unauthorized before writing anything, and the ledger is unchanged. *)
Theorem admin_calls_are_owner_gated ctx s :
  (msg_sender ctx ≠ pr_owner (registry s) → ∀ p,
     run (addPublisher ctx p) s = Revert (Unauthorized (msg_sender ctx)) s
     ∧ execute (ctx, AddPublisher p) s = s
     ∧ run (removePublisher ctx p) s = Revert (Unauthorized (msg_sender ctx)) s
     ∧ execute (ctx, RemovePublisher p) s = s)
  ∧ (msg_sender ctx ≠ nr_owner (news s) → ∀ vp mv,
     run (setVotingParams ctx vp mv) s = Revert (Unauthorized (msg_sender ctx)) s
     ∧ execute (ctx, SetVotingParams vp mv) s = s).
Proof.
  split.
  - intros Hne p. unfold execute, commit; simpl.
    rewrite addPublisher_run, removePublisher_run.
    destruct (decide (pr_owner (registry s) = msg_sender ctx)); [congruence|done].
  - intros Hne vp mv. unfold execute, commit; simpl.
    rewrite setVotingParams_run.
    destruct (decide (nr_owner (news s) = msg_sender ctx)); [congruence|done].
Qed.

Lemma admin_calls_are_owner_gated_witness :
  run (addPublisher (mkCtx 2 5) 9) demo_genesis = Revert (Unauthorized 2) demo_genesis
  ∧ run (setVotingParams (mkCtx 2 5) 0 0) demo_genesis
    = Revert (Unauthorized 2) demo_genesis.
Proof.
  destruct (admin_calls_are_owner_gated (mkCtx 2 5) demo_genesis) as [Hpub Hnews].
  split.
  - apply (Hpub ltac:(discriminate) 9).
  - apply (Hnews ltac:(discriminate) 0 0).
Defined.

(** C8: for an owner call, [addPublisher(P)] fails with "Already trusted"
    exactly when [P] is a member, and [removePublisher(Q)] fails with "Not
    trusted" exactly when [Q] is not; on success the membership of that one
    address becomes true, respectively false, nothing else in the ledger
    changes, and adding the same address again fails. *)
Theorem publisher_membership_is_guarded ctx s p :
  msg_sender ctx = pr_owner (registry s) →
  (run (addPublisher ctx p) s = Revert AlreadyTrusted s ↔ trusted s p = true)
  ∧ (trusted s p = false →
       ∃ s', run (addPublisher ctx p) s = Done () s' [PublisherAdded p]
         ∧ trusted s' p = true
         ∧ (∀ q, q ≠ p → trusted s' q = trusted s q)
         ∧ pr_owner (registry s') = pr_owner (registry s)
         ∧ news s' = news s
         ∧ run (addPublisher ctx p) s' = Revert AlreadyTrusted s')
  ∧ (run (removePublisher ctx p) s = Revert NotTrusted s ↔ trusted s p = false)
  ∧ (trusted s p = true →
       ∃ s', run (removePublisher ctx p) s = Done () s' [PublisherRemoved p]
         ∧ trusted s' p = false
         ∧ (∀ q, q ≠ p → trusted s' q = trusted s q)
         ∧ pr_owner (registry s') = pr_owner (registry s)
         ∧ news s' = news s).
Proof.
  intros Hown. rewrite addPublisher_run, removePublisher_run.
  destruct (decide (pr_owner (registry s) = msg_sender ctx)) as [Heq|]; [|congruence].
  split; [|split; [|split]].
  - destruct (trusted s p); split; intros; done.
  - intros Ht. rewrite Ht. exists (write_isTrusted p true s).
    rewrite addPublisher_run. simpl. rewrite decide_True by done.
    autorewrite with ledger. repeat split; try done.
    intros q Hq. by autorewrite with ledger.
  - destruct (trusted s p); split; intros; done.
  - intros Ht. rewrite Ht. exists (write_isTrusted p false s).
    autorewrite with ledger. repeat split; try done.
    intros q Hq. by autorewrite with ledger.
Qed.

Lemma publisher_membership_is_guarded_witness :
  run (addPublisher (mkCtx 1 3) 9) demo_open = Revert AlreadyTrusted demo_open
  ∧ run (removePublisher (mkCtx 1 3) 10) demo_open = Revert NotTrusted demo_open.
Proof.
  destruct (publisher_membership_is_guarded (mkCtx 1 3) demo_open 9)
    as (Hadd & _); [vm_compute; reflexivity|].
  destruct (publisher_membership_is_guarded (mkCtx 1 3) demo_open 10)
    as (_ & _ & Hrem & _); [vm_compute; reflexivity|].
  split.
  - apply Hadd. vm_compute. reflexivity.
  - apply Hrem. vm_compute. reflexivity.
Defined.

(** ** Reading an article *)

(** C9: in every ledger and for every fingerprint, [getArticle] always
    returns, for any caller, leaves the ledger as it was and emits nothing.
    It returns the stored record field by field; the result carries
    [createdAt = 0], the contract's mark for "no such record", exactly when
    no record exists, and in a consistent (so in every reachable) ledger
    that result is the all-zero record. *)
Theorem getArticle_is_a_pure_read s h :
  ∃ r, run (getArticle h) s = Done r s []
    ∧ (∀ ctx, run (call ctx (GetArticle h)) s = Done () s []
              ∧ execute (ctx, GetArticle h) s = s)
    ∧ r = article s h
    ∧ (recorded s h = true → createdAt r ≠ 0)
    ∧ (recorded s h = false → createdAt r = 0)
    ∧ (consistent s → recorded s h = false → r = zeroArticle).
Proof.
  exists (article s h). rewrite getArticle_run. unfold recorded.
  split; [done|]. split; [|split; [done|split; [|split]]].
  - intros ctx. unfold execute, commit; simpl. unfold forget. tx_unfold.
    fold (run (getArticle h) s). by rewrite getArticle_run.
  - intros Hr. apply negb_true_iff in Hr. by apply N.eqb_neq.
  - intros Hr. apply negb_false_iff in Hr. by apply N.eqb_eq.
  - intros [Hblank _] Hr. apply Hblank.
    apply negb_false_iff in Hr. by apply N.eqb_eq.
Qed.

Example getArticle_found :
  run (getArticle 77) demo_closed
  = Done (mkArticle 77 "u" 0 5 1000 Disputed 1 1 true) demo_closed [].
Proof. vm_compute. reflexivity. Qed.

Example getArticle_not_found :
  run (getArticle 78) demo_closed = Done zeroArticle demo_closed [].
Proof. vm_compute. reflexivity. Qed.

(** ** Counters and vote records *)

(** C10: in every reachable ledger the two counters of every article add up
    to the number of addresses with a vote record for it; and an article
    that was auto-verified on submission keeps both counters and its number
    of vote records at zero through any later transactions. *)
Theorem votes_match_recorded_voters ts d1 d2 vp mv :
  valid_trace ts = true →
  let s := replay ts (genesis d1 d2 vp mv) in
  (∀ h, yesVotes (article s h) + noVotes (article s h) = N.of_nat (counted s h))
  ∧ (∀ ctx h u p s' log later,
       valid_ctx ctx = true →
       run (submitArticle ctx h u p) s = Done () s' log →
       In (PublisherAutoVerified h) log →
       let s2 := replay later s' in
       yesVotes (article s2 h) = 0 ∧ noVotes (article s2 h) = 0
       ∧ counted s2 h = 0%nat).
Proof.
  intros Hval s.
  assert (consistent s) as Hcons by by apply reachable_consistent.
  split; [apply Hcons|].
  intros ctx h u p s' log later Hctx Hrun Hauto s2.
  assert (consistent s') as [_ Htally'].
  { rewrite <- (commit_done _ _ _ _ _ Hrun).
    by apply (execute_consistent (ctx, SubmitArticle h u p) s). }
  destruct Hcons as [Hblank _].
  destruct (submit_done _ _ _ _ _ _ _ Hrun).
  rewrite (Hblank h se_fresh0) in se_article0; simpl in se_article0.
  assert (auto_verifies s p = true) as Ha.
  { destruct (auto_verifies s p); [done|]. subst log. simpl in Hauto.
    destruct Hauto as [|[]]; discriminate. }
  rewrite Ha in se_article0; simpl in se_article0.
  destruct (replay_keeps_finalized later s' h) as [Hart Hvot].
  { rewrite se_article0; simpl. unfold valid_ctx in Hctx.
    apply N.ltb_lt in Hctx. lia. }
  { by rewrite se_article0. }
  fold s2 in Hart, Hvot.
  rewrite Hart, (counted_frame s' s2 h Hvot), se_article0; simpl.
  pose proof (Htally' h) as Hh. rewrite se_article0 in Hh; simpl in Hh.
  repeat split; try done. lia.
Qed.

Lemma votes_match_recorded_voters_witness :
  yesVotes (article demo_closed 77) + noVotes (article demo_closed 77)
  = N.of_nat (counted demo_closed 77).
Proof.
  destruct (votes_match_recorded_voters
              (demo_setup ++ [ (mkCtx 6 1010, Vote 77 true); (mkCtx 7 1061, Vote 77 false) ])
              (mkCtx 1 1) (mkCtx 1 1) 60 1) as [Htally _].
  - vm_compute. reflexivity.
  - exact (Htally 77).
Defined.

Example auto_verified_stays_at_zero :
  let s := replay [ (mkCtx 5 1500, SubmitArticle 78 "v" 9);
                    (mkCtx 6 1600, Vote 78 true); (mkCtx 7 1700, Vote 78 false) ]
                  demo_open in
  article s 78 = mkArticle 78 "v" 9 5 1500 VerifiedTrue 0 0 true
  ∧ counted s 78 = 0%nat.
Proof. split; vm_compute; reflexivity. Qed.

(** * Further properties of the contracts *)

(** ** Voting parameters *)

(** An owner call of [setVotingParams] stores both parameters and nothing
    else: no article is finalized by it, even one whose votes already meet
    the new parameters; the parameters are read by the next successful vote,
    which finalizes exactly when the new quorum and the new window hold. *)
Theorem setVotingParams_applies_to_next_vote ctx s vp mv :
  msg_sender ctx = nr_owner (news s) →
  ∃ s1, run (setVotingParams ctx vp mv) s = Done () s1 []
    ∧ votingPeriod (news s1) = vp ∧ minVotes (news s1) = mv
    ∧ articles (news s1) = articles (news s)
    ∧ hasVoted (news s1) = hasVoted (news s)
    ∧ nr_owner (news s1) = nr_owner (news s)
    ∧ registry s1 = registry s
    ∧ ∀ ctx' h support s2 log,
        run (vote ctx' h support) s1 = Done () s2 log →
        (finalized (article s2 h) = true ↔
           mv ≤ yesVotes (article s2 h) + noVotes (article s2 h)
           ∧ createdAt (article s h) + vp ≤ block_timestamp ctx').
Proof.
  intros Hown. rewrite setVotingParams_run.
  destruct (decide (nr_owner (news s) = msg_sender ctx)); [|congruence].
  eexists. split; [reflexivity|]. do 6 (split; [reflexivity|]).
  intros ctx' h support s2 log Hrun.
  destruct (vote_done _ _ _ _ _ _ Hrun). rewrite ve_fin0; simpl.
  rewrite andb_true_iff, !N.leb_le. done.
Qed.

Lemma setVotingParams_applies_to_next_vote_witness :
  finalized (article (execute (mkCtx 1 1020, SetVotingParams 0 1) demo_voted) 77) = false
  ∧ finalized (article (replay [ (mkCtx 1 1020, SetVotingParams 0 1);
                                 (mkCtx 7 1030, Vote 77 true) ] demo_voted) 77) = true.
Proof.
  destruct (setVotingParams_applies_to_next_vote (mkCtx 1 1020) demo_voted 0 1)
    as (s1 & Hrun & _ & _ & Harts & _ & _ & _ & Hnext); [vm_compute; reflexivity|].
  assert (execute (mkCtx 1 1020, SetVotingParams 0 1) demo_voted = s1) as Hs1
    by (unfold execute; simpl; apply (commit_done _ _ _ _ _ Hrun)).
  split.
  - rewrite Hs1, (article_frame _ _ _ Harts). vm_compute. reflexivity.
  - rewrite replay_cons, Hs1.
    apply (Hnext (mkCtx 7 1030) 77 true (execute (mkCtx 7 1030, Vote 77 true) s1)
                 [Voted 77 7 true; Finalized 77 VerifiedTrue]).
    + rewrite <- Hs1. vm_compute. reflexivity.
    + rewrite <- Hs1. vm_compute. split; discriminate.
Defined.

(** ** When a vote goes through *)

(** [vote] succeeds exactly when the record exists, is not finalized, the
    caller has no vote record for it, and the checked additions stay inside
    [uint256]: the new total, and, once the quorum test has passed, the
    deadline [createdAt + votingPeriod].  Nothing else is consulted; in
    particular the caller need not be a trusted publisher. *)
Theorem vote_succeeds_iff ctx s h support :
  let a := article s h in
  let total := yesVotes a + noVotes a + 1 in
  (∃ s' log, run (vote ctx h support) s = Done () s' log) ↔
  recorded s h = true ∧ finalized a = false ∧ voted s h (msg_sender ctx) = false
  ∧ total < MAX_UINT256_SUCC
  ∧ (minVotes (news s) ≤ total →
     createdAt a + votingPeriod (news s) < MAX_UINT256_SUCC).
Proof.
  intros a total. subst a total. unfold recorded. split.
  - intros (s' & log & Hrun). revert Hrun. unfold vote. tx_unfold.
    destruct (createdAt (article s h) =? 0) eqn:E1; simpl; [discriminate|].
    destruct (finalized (article s h)) eqn:E2; simpl; [discriminate|].
    destruct (voted s h (msg_sender ctx)) eqn:E3; simpl; [discriminate|].
    intros H. do 3 (split; [done|]).
    destruct support; repeat (case_match; simplify_eq); reads_in_hyps;
      repeat match goal with
      | H : (_ <? _) = true |- _ => apply N.ltb_lt in H
      | H : (_ <=? _) = true |- _ => apply N.leb_le in H
      | H : (_ <=? _) = false |- _ => apply N.leb_gt in H
      end; split; lia.
  - intros (Hc & Hf & Hv & Ht & Hd).
    apply negb_true_iff in Hc. unfold vote. tx_unfold.
    rewrite Hc; simpl. rewrite Hf; simpl. rewrite Hv; simpl.
    destruct support; autorewrite with ledger.
    + assert ((yesVotes (article s h) + 1 <? MAX_UINT256_SUCC) = true) as ->
        by (apply N.ltb_lt; lia).
      simpl. autorewrite with ledger; simpl.
      assert ((yesVotes (article s h) + 1 + noVotes (article s h)
               <? MAX_UINT256_SUCC) = true) as -> by (apply N.ltb_lt; lia).
      simpl.
      destruct (minVotes (news s) <=? _) eqn:Eq; simpl.
      * apply N.leb_le in Eq. autorewrite with ledger; simpl.
        assert ((createdAt (article s h) + votingPeriod (news s)
                 <? MAX_UINT256_SUCC) = true) as ->
          by (apply N.ltb_lt, Hd; lia).
        simpl. repeat (case_match; simplify_eq); eauto.
      * eauto.
    + assert ((noVotes (article s h) + 1 <? MAX_UINT256_SUCC) = true) as ->
        by (apply N.ltb_lt; lia).
      simpl. autorewrite with ledger; simpl.
      assert ((yesVotes (article s h) + (noVotes (article s h) + 1)
               <? MAX_UINT256_SUCC) = true) as -> by (apply N.ltb_lt; lia).
      simpl.
      destruct (minVotes (news s) <=? _) eqn:Eq; simpl.
      * apply N.leb_le in Eq. autorewrite with ledger; simpl.
        assert ((createdAt (article s h) + votingPeriod (news s)
                 <? MAX_UINT256_SUCC) = true) as ->
          by (apply N.ltb_lt, Hd; lia).
        simpl. repeat (case_match; simplify_eq); eauto.
      * eauto.
Qed.

(** A vote that reaches the quorum computes [createdAt + votingPeriod] with
    checked addition.  When that sum does not fit in [uint256] the call
    panics and nothing is recorded: with such a voting period every vote
    that would reach the quorum is refused, whatever the ledger time. *)
Theorem quorum_vote_panics_on_deadline_overflow ctx s h support :
  recorded s h = true →
  finalized (article s h) = false →
  voted s h (msg_sender ctx) = false →
  yesVotes (article s h) + noVotes (article s h) + 1 < MAX_UINT256_SUCC →
  minVotes (news s) ≤ yesVotes (article s h) + noVotes (article s h) + 1 →
  MAX_UINT256_SUCC ≤ createdAt (article s h) + votingPeriod (news s) →
  (∃ d, run (vote ctx h support) s = Revert ArithmeticOverflow d)
  ∧ execute (ctx, Vote h support) s = s.
Proof.
  intros Hc Hf Hv Ht Hq Hd.
  assert (∃ d, run (vote ctx h support) s = Revert ArithmeticOverflow d) as [d Hr].
  { unfold recorded in Hc. apply negb_true_iff in Hc. unfold vote. tx_unfold.
    rewrite Hc; simpl. rewrite Hf; simpl. rewrite Hv; simpl.
    destruct support; autorewrite with ledger.
    - assert ((yesVotes (article s h) + 1 <? MAX_UINT256_SUCC) = true) as ->
        by (apply N.ltb_lt; lia).
      simpl. autorewrite with ledger; simpl.
      assert ((yesVotes (article s h) + 1 + noVotes (article s h)
               <? MAX_UINT256_SUCC) = true) as -> by (apply N.ltb_lt; lia).
      simpl.
      assert ((minVotes (news s) <=? yesVotes (article s h) + 1 + noVotes (article s h))
              = true) as -> by (apply N.leb_le; lia).
      simpl. autorewrite with ledger; simpl.
      assert ((createdAt (article s h) + votingPeriod (news s)
               <? MAX_UINT256_SUCC) = false) as -> by (apply N.ltb_ge; lia).
      eauto.
    - assert ((noVotes (article s h) + 1 <? MAX_UINT256_SUCC) = true) as ->
        by (apply N.ltb_lt; lia).
      simpl. autorewrite with ledger; simpl.
      assert ((yesVotes (article s h) + (noVotes (article s h) + 1)
               <? MAX_UINT256_SUCC) = true) as -> by (apply N.ltb_lt; lia).
      simpl.
      assert ((minVotes (news s) <=? yesVotes (article s h) + (noVotes (article s h) + 1))
              = true) as -> by (apply N.leb_le; lia).
      simpl. autorewrite with ledger; simpl.
      assert ((createdAt (article s h) + votingPeriod (news s)
               <? MAX_UINT256_SUCC) = false) as -> by (apply N.ltb_ge; lia).
      eauto. }
  split; [eauto|]. unfold execute; simpl. by rewrite (commit_revert _ _ _ _ Hr).
Qed.

Lemma quorum_vote_panics_on_deadline_overflow_witness :
  let frozen := execute (mkCtx 1 1005, SetVotingParams (MAX_UINT256_SUCC - 1) 1) demo_open in
  execute (mkCtx 6 1010, Vote 77 true) frozen = frozen.
Proof.
  intros frozen.
  apply (quorum_vote_panics_on_deadline_overflow (mkCtx 6 1010) frozen 77 true);
    vm_compute; (reflexivity || discriminate).
Defined.

(** ** Submission and lookup *)

(** After a successful [submitArticle(h, uri, P)] in a reachable ledger,
    [getArticle(h)] returns the key, the uri and the claimed publisher as
    given, the caller as submitter, the ledger time as creation time, zero
    counters, and VerifiedTrue with the finalized flag when [P] is non-zero
    and trusted, UnderReview without it otherwise. *)
Theorem getArticle_after_submit ts d1 d2 vp mv ctx h u p s' log :
  valid_trace ts = true →
  let s := replay ts (genesis d1 d2 vp mv) in
  run (submitArticle ctx h u p) s = Done () s' log →
  run (getArticle h) s'
  = Done (mkArticle h u p (msg_sender ctx) (block_timestamp ctx)
            (if auto_verifies s p then VerifiedTrue else UnderReview) 0 0
            (auto_verifies s p)) s' [].
Proof.
  intros Hval s Hrun. rewrite getArticle_run.
  assert (consistent s) as [Hblank _] by by apply reachable_consistent.
  destruct (submit_done _ _ _ _ _ _ _ Hrun).
  rewrite se_article0, (Hblank h se_fresh0); simpl.
  by rewrite orb_false_r.
Qed.

Lemma getArticle_after_submit_witness :
  run (getArticle 77) demo_open
  = Done (mkArticle 77 "u" 0 5 1000 UnderReview 0 0 false) demo_open [].
Proof.
  apply (getArticle_after_submit [ (mkCtx 1 2, AddPublisher 9) ] (mkCtx 1 1) (mkCtx 1 1)
           60 1 (mkCtx 5 1000) 77 "u" 0 demo_open [Submitted 77 5 "u"]);
    vm_compute; reflexivity.
Defined.

(** ** Records over time *)

Lemma execute_status_tracks_flag t s :
  valid_ctx (fst t) = true → consistent s →
  status_tracks_flag s → status_tracks_flag (execute t s).
Proof.
  intros Hval [Hblank _] Hinv.
  destruct (execute_view t s) as [Ha Hv|h' b log _ E|h' u p log _ E]; intros h.
  - rewrite (article_frame _ _ _ Ha). apply Hinv.
  - destruct (decide (h = h')) as [->|Hne];
      [|rewrite (ve_others _ _ _ _ _ _ E) by done; apply Hinv].
    destruct E. destruct ve_meta0 as (-> & _ & _ & _ & ->).
    destruct (Hinv h') as [Hflag Hkey]. split; [|done].
    rewrite ve_status0. destruct (finalized (article (execute t s) h')) eqn:Hf.
    + unfold verdict. split; [|done]. intros _. repeat case_match; done.
    + rewrite <- Hflag, ve_open0. done.
  - destruct (decide (h = h')) as [->|Hne];
      [|rewrite (se_others _ _ _ _ _ _ _ E) by done; apply Hinv].
    destruct E. rewrite se_article0, (Hblank h' se_fresh0); simpl.
    split; [|done]. destruct (auto_verifies s p); simpl; split; done.
Qed.

(** In every reachable ledger an article is finalized exactly when its
    status is no longer UnderReview, and every stored record holds its own
    fingerprint in [contentHash]. *)
Theorem status_left_review_iff_finalized ts d1 d2 vp mv h :
  valid_trace ts = true →
  let a := article (replay ts (genesis d1 d2 vp mv)) h in
  (finalized a = true ↔ status a ≠ UnderReview)
  ∧ (createdAt a ≠ 0 → contentHash a = h).
Proof.
  intros Hval a. subst a.
  cut (consistent (replay ts (genesis d1 d2 vp mv))
       ∧ status_tracks_flag (replay ts (genesis d1 d2 vp mv))).
  { intros [_ H]. apply H. }
  apply (replay_preserves_valid (λ s, consistent s ∧ status_tracks_flag s));
    [|done|].
  - intros t s Ht [Hc Hs]. split.
    + by apply execute_consistent.
    + by apply execute_status_tracks_flag.
  - split; [apply genesis_consistent|]. intros h'. split; [|done].
    split; done.
Qed.

Lemma status_left_review_iff_finalized_witness :
  contentHash (article demo_closed 77) = 77.
Proof.
  destruct (status_left_review_iff_finalized
              (demo_setup ++ [ (mkCtx 6 1010, Vote 77 true); (mkCtx 7 1061, Vote 77 false) ])
              (mkCtx 1 1) (mkCtx 1 1) 60 1 77) as [_ Hkey].
  - vm_compute. reflexivity.
  - apply Hkey. vm_compute. discriminate.
Defined.

Lemma execute_keeps_metadata t s h :
  createdAt (article s h) ≠ 0 →
  contentHash (article (execute t s) h) = contentHash (article s h)
  ∧ uri (article (execute t s) h) = uri (article s h)
  ∧ publisher (article (execute t s) h) = publisher (article s h).
Proof.
  intros Hc. destruct (execute_view t s) as [Ha Hv|h' b log _ E|h' u p log _ E].
  - by rewrite (article_frame _ _ _ Ha).
  - destruct (decide (h = h')) as [->|Hne].
    + destruct (ve_meta _ _ _ _ _ _ E) as (-> & -> & -> & _). done.
    + by rewrite (ve_others _ _ _ _ _ _ E).
  - destruct (decide (h = h')) as [->|Hne].
    + by destruct Hc; apply (se_fresh _ _ _ _ _ _ _ E).
    + by rewrite (se_others _ _ _ _ _ _ _ E).
Qed.

(** The uri, the claimed publisher and the stored fingerprint of an existing
    record are never rewritten, by any sequence of transactions. *)
Theorem record_metadata_is_write_once ts s h :
  recorded s h = true →
  contentHash (article (replay ts s) h) = contentHash (article s h)
  ∧ uri (article (replay ts s) h) = uri (article s h)
  ∧ publisher (article (replay ts s) h) = publisher (article s h).
Proof.
  intros Hrec.
  assert (createdAt (article s h) ≠ 0) as Hc.
  { unfold recorded in Hrec. apply negb_true_iff in Hrec. by apply N.eqb_neq. }
  clear Hrec. revert s Hc. induction ts as [|t ts IH]; intros s Hc; [done|].
  rewrite replay_cons.
  destruct (execute_keeps_metadata t s h Hc) as (<- & <- & <-).
  apply IH. destruct (execute_keeps_record t s h Hc) as [-> _]. done.
Qed.

Lemma record_metadata_is_write_once_witness :
  uri (article (replay [ (mkCtx 8 2000, SubmitArticle 77 "other" 9);
                         (mkCtx 6 1010, Vote 77 true) ] demo_open) 77) = "u".
Proof.
  destruct (record_metadata_is_write_once
              [ (mkCtx 8 2000, SubmitArticle 77 "other" 9); (mkCtx 6 1010, Vote 77 true) ]
              demo_open 77) as (_ & Hu & _).
  - vm_compute. reflexivity.
  - rewrite Hu. vm_compute. reflexivity.
Defined.

Lemma execute_counters_grow t s h :
  yesVotes (article s h) ≤ yesVotes (article (execute t s) h)
  ∧ noVotes (article s h) ≤ noVotes (article (execute t s) h)
  ∧ yesVotes (article (execute t s) h) + noVotes (article (execute t s) h)
    ≤ yesVotes (article s h) + noVotes (article s h) + 1.
Proof.
  destruct (execute_view t s) as [Ha Hv|h' b log _ E|h' u p log _ E].
  - rewrite (article_frame _ _ _ Ha). lia.
  - destruct (decide (h = h')) as [->|Hne].
    + rewrite (ve_yes _ _ _ _ _ _ E), (ve_no _ _ _ _ _ _ E). destruct b; lia.
    + rewrite (ve_others _ _ _ _ _ _ E) by done. lia.
  - destruct (decide (h = h')) as [->|Hne].
    + rewrite (se_article _ _ _ _ _ _ _ E); simpl. lia.
    + rewrite (se_others _ _ _ _ _ _ _ E) by done. lia.
Qed.

(** No transaction ever lowers a vote counter, and a trace of [n]
    transactions raises the two counters of an article by at most [n]
    together. *)
Theorem vote_counters_only_grow ts s h :
  yesVotes (article s h) ≤ yesVotes (article (replay ts s) h)
  ∧ noVotes (article s h) ≤ noVotes (article (replay ts s) h)
  ∧ yesVotes (article (replay ts s) h) + noVotes (article (replay ts s) h)
    ≤ yesVotes (article s h) + noVotes (article s h) + N.of_nat (length ts).
Proof.
  revert s. induction ts as [|t ts IH]; intros s; [simpl; lia|].
  rewrite replay_cons. specialize (IH (execute t s)).
  pose proof (execute_counters_grow t s h). simpl length. lia.
Qed.

(** ** The chain log and the storage *)

Lemma execute_log_view t s : log_view t s.
Proof.
  destruct t as [ctx c].
  destruct c as [h u p|h b|h|vp mv|p|p|p|p|[] o|[]].
  - destruct (run (submitArticle ctx h u p) s) as [[] s' log|e d] eqn:E.
    + apply (lv_submit _ _ h u p). unfold emitted, execute, commit; simpl.
      rewrite E. by apply submit_done.
    + apply lv_quiet; unfold emitted, execute, commit; simpl; by rewrite E.
  - destruct (run (vote ctx h b) s) as [[] s' log|e d] eqn:E.
    + apply (lv_vote _ _ h b). unfold emitted, execute, commit; simpl.
      rewrite E. by apply vote_done.
    + apply lv_quiet; unfold emitted, execute, commit; simpl; by rewrite E.
  - apply lv_quiet; reflexivity.
  - apply lv_quiet; unfold emitted, execute, commit; simpl;
      rewrite setVotingParams_run; by destruct (decide _).
  - pose proof (addPublisher_run ctx s p) as E.
    destruct (decide _); [destruct (trusted s p) eqn:Et|].
    + apply lv_quiet; unfold emitted, execute, commit; simpl; by rewrite E.
    + apply (lv_add _ _ p); [|done|]; unfold emitted, execute, commit; simpl;
        by rewrite E.
    + apply lv_quiet; unfold emitted, execute, commit; simpl; by rewrite E.
  - pose proof (removePublisher_run ctx s p) as E.
    destruct (decide _); [destruct (trusted s p) eqn:Et|].
    + apply (lv_remove _ _ p); [|done|]; unfold emitted, execute, commit; simpl;
        by rewrite E.
    + apply lv_quiet; unfold emitted, execute, commit; simpl; by rewrite E.
    + apply lv_quiet; unfold emitted, execute, commit; simpl; by rewrite E.
  - apply lv_quiet; reflexivity.
  - apply lv_quiet; reflexivity.
  - apply lv_quiet; unfold emitted, execute, commit; simpl;
      unfold transferOwnership; tx_unfold;
      repeat (case_match; simplify_eq); reflexivity.
  - apply lv_quiet; unfold emitted, execute, commit; simpl;
      unfold transferOwnership; tx_unfold;
      repeat (case_match; simplify_eq); reflexivity.
  - apply lv_quiet; unfold emitted, execute, commit; simpl;
      unfold renounceOwnership; tx_unfold;
      repeat (case_match; simplify_eq); reflexivity.
  - apply lv_quiet; unfold emitted, execute, commit; simpl;
      unfold renounceOwnership; tx_unfold;
      repeat (case_match; simplify_eq); reflexivity.
Qed.

Lemma count_events_app f l1 l2 :
  count_events f (l1 ++ l2) = (count_events f l1 + count_events f l2)%nat.
Proof. unfold count_events. by rewrite List.filter_app, length_app. Qed.

Lemma history_finalized_step t s h :
  consistent s →
  (count_events (is_finalized_for h) (emitted t s) + flag (finalized (article s h))
   = flag (finalized (article (execute t s) h)))%nat.
Proof.
  intros [Hblank _].
  destruct (execute_log_view t s) as [-> Ha _ _| p -> _ ->| p -> _ ->|h' b E|h' u p E].
  - by rewrite (article_frame _ _ _ Ha).
  - reflexivity.
  - reflexivity.
  - destruct E. rewrite ve_log0. destruct (decide (h = h')) as [->|Hne].
    + rewrite ve_open0. unfold count_events; simpl.
      destruct (finalized (article (execute t s) h')); simpl; [|done].
      by rewrite N.eqb_refl.
    + rewrite (ve_others0 h) by done. unfold count_events; simpl.
      assert ((h' =? h) = false) as Hh by (apply N.eqb_neq; congruence).
      destruct (finalized (article (execute t s) h')); simpl; by rewrite ?Hh.
  - destruct E. rewrite se_log0. destruct (decide (h = h')) as [->|Hne].
    + rewrite se_article0, (Hblank h' se_fresh0); simpl.
      unfold count_events.
      destruct (auto_verifies s p); simpl; by rewrite ?N.eqb_refl.
    + rewrite (se_others0 h) by done. unfold count_events.
      assert ((h' =? h) = false) as Hh by (apply N.eqb_neq; congruence).
      destruct (auto_verifies s p); simpl; by rewrite ?Hh.
Qed.

(** Over every trace from deployment, the chain log holds exactly one
    Finalized notification for each finalized article and none for an
    article that is not finalized. *)
Theorem finalized_is_announced_exactly_once ts d1 d2 vp mv h :
  valid_trace ts = true →
  count_events (is_finalized_for h) (history ts (genesis d1 d2 vp mv))
  = flag (finalized (article (replay ts (genesis d1 d2 vp mv)) h)).
Proof.
  intros Hval.
  cut (∀ s, consistent s →
         (count_events (is_finalized_for h) (history ts s)
          + flag (finalized (article s h))
          = flag (finalized (article (replay ts s) h)))%nat).
  { intros H. rewrite <- (H _ (genesis_consistent d1 d2 vp mv)).
    change (article (genesis d1 d2 vp mv) h) with zeroArticle. simpl. lia. }
  clear d1 d2 vp mv. induction ts as [|t ts IH]; intros s Hs; [done|].
  simpl in Hval. apply andb_true_iff in Hval as [Ht Hval].
  rewrite replay_cons. simpl history. rewrite count_events_app.
  rewrite <- (IH Hval (execute t s)) by by apply execute_consistent.
  rewrite <- (history_finalized_step t s h Hs). lia.
Qed.

Lemma finalized_is_announced_exactly_once_witness :
  let ts := demo_setup ++ [ (mkCtx 6 1010, Vote 77 true); (mkCtx 7 1061, Vote 77 false);
                            (mkCtx 8 1070, Vote 77 true) ] in
  count_events (is_finalized_for 77) (history ts demo_genesis) = 1%nat.
Proof.
  intros ts. unfold demo_genesis.
  rewrite (finalized_is_announced_exactly_once ts (mkCtx 1 1) (mkCtx 1 1) 60 1 77).
  - vm_compute. reflexivity.
  - vm_compute. reflexivity.
Defined.

(** The chain log holds one Voted notification per counted vote: for every
    article the number of its Voted events along a trace is the growth of
    [yesVotes + noVotes]. *)
Theorem voted_events_match_counters ts s h :
  N.of_nat (count_events (is_voted_for h) (history ts s))
  + (yesVotes (article s h) + noVotes (article s h))
  = yesVotes (article (replay ts s) h) + noVotes (article (replay ts s) h).
Proof.
  revert s. induction ts as [|t ts IH]; intros s; [done|].
  rewrite replay_cons. simpl history. rewrite count_events_app, <- IH.
  cut (N.of_nat (count_events (is_voted_for h) (emitted t s))
       + (yesVotes (article s h) + noVotes (article s h))
       = yesVotes (article (execute t s) h) + noVotes (article (execute t s) h)).
  { lia. }
  destruct (execute_log_view t s) as [-> Ha _ _| p -> _ ->| p -> _ ->|h' b E|h' u p E].
  - by rewrite (article_frame _ _ _ Ha).
  - reflexivity.
  - reflexivity.
  - destruct E. rewrite ve_log0. unfold count_events.
    destruct (decide (h = h')) as [->|Hne].
    + rewrite ve_yes0, ve_no0. simpl. rewrite N.eqb_refl.
      destruct (finalized (article (execute t s) h')), b; simpl; lia.
    + rewrite (ve_others0 h) by done. simpl.
      assert ((h' =? h) = false) as -> by (apply N.eqb_neq; congruence).
      by destruct (finalized (article (execute t s) h')).
  - destruct E. rewrite se_log0. unfold count_events.
    destruct (decide (h = h')) as [->|Hne].
    + rewrite se_article0; simpl. by destruct (auto_verifies s p).
    + rewrite (se_others0 h) by done. by destruct (auto_verifies s p).
Qed.

(** ** Membership of the registry *)

(** Adding an untrusted address and removing it again, both by the owner,
    logs the two notifications and leaves every address with the membership
    it had, and the news registry and the owner untouched; in between,
    [trustStatus] reports the address as trusted. *)
Theorem add_then_remove_restores_membership ctx ctx' s p :
  msg_sender ctx = pr_owner (registry s) →
  msg_sender ctx' = pr_owner (registry s) →
  trusted s p = false →
  let s1 := execute (ctx, AddPublisher p) s in
  let s2 := execute (ctx', RemovePublisher p) s1 in
  history [ (ctx, AddPublisher p); (ctx', RemovePublisher p) ] s
  = [PublisherAdded p; PublisherRemoved p]
  ∧ run (trustStatus p) s1 = Done true s1 []
  ∧ (∀ q, trusted s2 q = trusted s q)
  ∧ news s2 = news s
  ∧ pr_owner (registry s2) = pr_owner (registry s).
Proof.
  intros Hown Hown' Ht s1 s2. subst s1 s2.
  assert (execute (ctx, AddPublisher p) s = write_isTrusted p true s) as Hs1.
  { unfold execute, commit; simpl. rewrite addPublisher_run, Ht.
    by destruct (decide _); [|congruence]. }
  assert (∀ c, run (removePublisher c p) (write_isTrusted p true s)
               = if decide (pr_owner (registry s) = msg_sender c)
                 then Done () (write_isTrusted p false (write_isTrusted p true s))
                        [PublisherRemoved p]
                 else Revert (Unauthorized (msg_sender c)) (write_isTrusted p true s))
    as Hrem.
  { intros c. rewrite removePublisher_run. by autorewrite with ledger. }
  assert (execute (ctx', RemovePublisher p) (write_isTrusted p true s)
          = write_isTrusted p false (write_isTrusted p true s)) as Hs2.
  { unfold execute, commit; simpl. rewrite Hrem.
    by destruct (decide _); [|congruence]. }
  rewrite Hs1, Hs2.
  split; [|split; [|split; [|split]]].
  - unfold history, emitted; simpl. rewrite Hs1, Hrem.
    rewrite addPublisher_run, Ht.
    do 2 (destruct (decide _); [|congruence]). done.
  - unfold trustStatus. tx_unfold. by autorewrite with ledger.
  - intros q. destruct (decide (p = q)) as [->|Hne].
    + by autorewrite with ledger.
    + by autorewrite with ledger.
  - done.
  - done.
Qed.

Lemma add_then_remove_restores_membership_witness :
  trusted (replay [ (mkCtx 1 5, AddPublisher 10); (mkCtx 1 6, RemovePublisher 10) ]
                  demo_genesis) 10 = false.
Proof.
  destruct (add_then_remove_restores_membership (mkCtx 1 5) (mkCtx 1 6) demo_genesis 10)
    as (_ & _ & Hq & _).
  - vm_compute. reflexivity.
  - vm_compute. reflexivity.
  - vm_compute. reflexivity.
  - exact (Hq 10).
Defined.

(** ** The deployment script *)

(** The script goes through for every deployer but [SECOND_PUBLISHER]
    itself, for which the last transaction reverts with "Already trusted".
    When it goes through, the ledger is the one reached from [genesis] by the
    two [addPublisher] transactions: both contracts are owned by the
    deployer, the voting period is 60, the quorum is 1, and the trusted
    addresses are exactly the deployer and [SECOND_PUBLISHER]. *)
Theorem deploy_main_outcome deployer t1 t2 t3 t4 :
  (deployer = SECOND_PUBLISHER →
     deploy_main deployer t1 t2 t3 t4 = Failed AlreadyTrusted)
  ∧ (deployer ≠ SECOND_PUBLISHER →
     ∃ s, deploy_main deployer t1 t2 t3 t4 = Deployed s
       ∧ s = replay [ (mkCtx deployer t3, AddPublisher deployer);
                      (mkCtx deployer t4, AddPublisher SECOND_PUBLISHER) ]
                    (genesis (mkCtx deployer t1) (mkCtx deployer t2) 60 1)
       ∧ pr_owner (registry s) = deployer ∧ nr_owner (news s) = deployer
       ∧ votingPeriod (news s) = 60 ∧ minVotes (news s) = 1
       ∧ (∀ a, trusted s a = true ↔ a = deployer ∨ a = SECOND_PUBLISHER)
       ∧ (∀ h, recorded s h = false)).
Proof.
  unfold deploy_main.
  change (mkLedger _ _)
    with (genesis (mkCtx deployer t1) (mkCtx deployer t2) 60 1).
  set (g := genesis _ _ _ _).
  assert (∀ a, trusted g a = false) as Hnone.
  { intros a. unfold trusted, g; simpl. by rewrite lookup_empty. }
  assert (run (addPublisher (mkCtx deployer t3) deployer) g
          = Done () (write_isTrusted deployer true g) [PublisherAdded deployer]) as E1.
  { rewrite addPublisher_run, Hnone.
    destruct (decide _) as [|Hn]; [done|by destruct Hn]. }
  assert (deployer ≠ SECOND_PUBLISHER →
          run (addPublisher (mkCtx deployer t4) SECOND_PUBLISHER)
            (write_isTrusted deployer true g)
          = Done () (write_isTrusted SECOND_PUBLISHER true
                       (write_isTrusted deployer true g))
              [PublisherAdded SECOND_PUBLISHER]) as E2.
  { intros Hne. rewrite addPublisher_run.
    destruct (decide _) as [|Hn]; [|by destruct Hn].
    autorewrite with ledger. by rewrite Hnone. }
  rewrite E1. split.
  - intros ->. rewrite addPublisher_run.
    destruct (decide _) as [|Hn]; [|by destruct Hn].
    by autorewrite with ledger.
  - intros Hne. rewrite (E2 Hne).
    eexists. split; [reflexivity|]. split.
    { unfold replay, execute, commit; simpl. by rewrite E1, (E2 Hne). }
    do 4 (split; [reflexivity|]). split.
    + intros a. destruct (decide (a = SECOND_PUBLISHER)) as [->|H2].
      { autorewrite with ledger. tauto. }
      autorewrite with ledger. destruct (decide (a = deployer)) as [->|H1].
      { autorewrite with ledger. tauto. }
      autorewrite with ledger. rewrite Hnone.
      split; [done|]. intros [|]; done.
    + intros h. reflexivity.
Qed.

Lemma deploy_main_outcome_witness :
  ∃ s, deploy_main 0xf39fd6e51aad88f6f4ce6ab8827279cfffb92266 1 2 3 4 = Deployed s
    ∧ trusted s SECOND_PUBLISHER = true.
Proof.
  destruct (deploy_main_outcome 0xf39fd6e51aad88f6f4ce6ab8827279cfffb92266 1 2 3 4)
    as [_ Hok].
  destruct Hok as (s & Hs & _ & _ & _ & _ & _ & Ht & _); [discriminate|].
  exists s. split; [exact Hs|]. apply Ht. by right.
Defined.

(** ** The trusted list of the admin panel *)

Lemma evt_before_spec a b :
  evt_before a b ↔
  evt_blockNumber a < evt_blockNumber b
  ∨ (evt_blockNumber a = evt_blockNumber b ∧ evt_logIndex a ≤ evt_logIndex b).
Proof.
  unfold evt_before, evt_compare. cbv zeta.
  destruct (Z.eqb_spec (Z.of_N (evt_blockNumber a) - Z.of_N (evt_blockNumber b)) 0); lia.
Qed.

#[global] Instance evt_before_trans : Transitive evt_before.
Proof. intros a b c. rewrite !evt_before_spec. lia. Qed.

#[global] Instance evt_before_total : Total evt_before.
Proof. intros a b. rewrite !evt_before_spec. lia. Qed.

Lemma evt_strict_before a b : evt_strict a b → evt_before a b.
Proof. rewrite evt_before_spec. unfold evt_strict. lia. Qed.

Lemma registry_evt_position e x :
  registry_evt e = Some x →
  evt_blockNumber x = blockNumber e ∧ evt_logIndex x = logIndex e.
Proof.
  unfold registry_evt. destruct (le_event e); intros [= <-]; done.
Qed.

Lemma chain_evts_strictly_sorted chain :
  chain_ordered chain → StronglySorted evt_strict (chain_evts chain).
Proof.
  unfold chain_ordered, chain_evts.
  induction 1 as [|e chain Hs IH Hall]; simpl; [constructor|].
  destruct (registry_evt e) as [x|] eqn:Ex; [|done].
  constructor; [done|]. apply Forall_forall. intros y Hy.
  apply list_elem_of_omap in Hy as (e' & He' & Ey).
  rewrite Forall_forall in Hall. specialize (Hall e' He').
  destruct (registry_evt_position _ _ Ex) as [Hb Hl].
  destruct (registry_evt_position _ _ Ey) as [Hb' Hl'].
  unfold evt_strict, position_lt in *. lia.
Qed.

Lemma strictly_sorted_same_position l x y :
  StronglySorted evt_strict l → x ∈ l → y ∈ l →
  evt_before x y → evt_before y x → x = y.
Proof.
  intros Hs. induction Hs as [|z l Hs IH Hall]; intros Hx Hy Hxy Hyx.
  { by apply elem_of_nil in Hx. }
  rewrite Forall_forall in Hall.
  apply elem_of_cons in Hx as [->|Hx], Hy as [->|Hy]; [done| | |by apply IH].
  - specialize (Hall y Hy). apply evt_before_spec in Hyx.
    unfold evt_strict in Hall. lia.
  - specialize (Hall x Hx). apply evt_before_spec in Hxy.
    unfold evt_strict in Hall. lia.
Qed.

Lemma tagged_evts_permutation chain :
  map (push_evt add) (queryFilter_PublisherAdded chain)
  ++ map (push_evt remove) (queryFilter_PublisherRemoved chain)
  ≡ₚ chain_evts chain.
Proof.
  unfold queryFilter_PublisherAdded, queryFilter_PublisherRemoved, chain_evts.
  induction chain as [|e chain IH]; simpl; [done|].
  unfold registry_evt at 1. destruct (le_event e); simpl; try done.
  - by rewrite IH.
  - by rewrite <- Permutation_middle, IH.
Qed.

(** Sorting the tagged events by the comparator puts them back in chain
    order. *)
Lemma sort_evts_chain_order chain :
  chain_ordered chain →
  sort_evts (map (push_evt add) (queryFilter_PublisherAdded chain)
             ++ map (push_evt remove) (queryFilter_PublisherRemoved chain))
  = chain_evts chain.
Proof.
  intros Hord. pose proof (chain_evts_strictly_sorted chain Hord) as Hstrict.
  unfold sort_evts.
  apply (StronglySorted_unique_strong evt_before).
  - intros x y Hx Hy. rewrite merge_sort_Permutation, tagged_evts_permutation in Hx.
    by apply (strictly_sorted_same_position (chain_evts chain)).
  - apply StronglySorted_merge_sort; apply _.
  - clear Hord. induction Hstrict as [|z l Hs IH Hall]; constructor; [done|].
    eapply Forall_impl; [done|]. intros y. apply evt_strict_before.
  - by rewrite merge_sort_Permutation, tagged_evts_permutation.
Qed.

Lemma fold_chain_evts chain m :
  fold_left apply_evt (chain_evts chain) m
  = fold_left apply_event (map le_event chain) m.
Proof.
  unfold chain_evts. revert m.
  induction chain as [|e chain IH]; intros m; simpl; [done|].
  unfold registry_evt at 1. unfold push_evt.
  destruct (le_event e) eqn:Ee; simpl; rewrite ?IH; try done.
Qed.

Lemma jsmap_has_keys k m : jsmap_has k m = true ↔ k ∈ jsmap_keys m.
Proof.
  unfold jsmap_has, jsmap_keys. rewrite existsb_exists, list_elem_of_In, in_map_iff.
  split.
  - intros ([k' v] & Hin & Hk). apply N.eqb_eq in Hk. simpl in Hk. subst k'.
    by exists (k, v).
  - intros ([k' v] & Hk & Hin). simpl in Hk. subst k'. exists (k, v).
    split; [done|]. by apply N.eqb_eq.
Qed.

Lemma jsmap_keys_set_new k v m :
  k ∉ jsmap_keys m → jsmap_keys (jsmap_set k v m) = jsmap_keys m ++ [k].
Proof.
  intros Hk. unfold jsmap_set.
  destruct (jsmap_has k m) eqn:E.
  - by apply jsmap_has_keys in E.
  - unfold jsmap_keys. by rewrite map_app.
Qed.

Lemma jsmap_keys_delete k m :
  jsmap_keys (jsmap_delete k m) = List.filter (λ a, negb (a =? k)) (jsmap_keys m).
Proof.
  unfold jsmap_keys, jsmap_delete.
  induction m as [|[a v] m IH]; simpl; [done|].
  destruct (a =? k); simpl; by rewrite IH.
Qed.

Lemma directory_step t s m :
  directory_matches m s →
  directory_matches (fold_left apply_event (emitted t s) m) (execute t s).
Proof.
  intros [Hnd Hin].
  assert (∀ s', isTrusted (registry s') = isTrusted (registry s) →
                directory_matches m s') as Hsame.
  { intros s' E. split; [done|]. intros a. rewrite Hin. unfold trusted. by rewrite E. }
  destruct (execute_log_view t s) as [-> _ _ Hr| p -> Hp ->| p -> Hp ->|h b E|h u p E].
  - by apply Hsame.
  - unfold directory_matches. cbn [fold_left apply_event].
    assert (p ∉ jsmap_keys m) as Hnew.
    { rewrite Hin, Hp. done. }
    rewrite (jsmap_keys_set_new _ _ _ Hnew). split.
    + apply NoDup_app. split; [done|]. split; [|apply NoDup_singleton].
      intros a Ha ->%list_elem_of_singleton. done.
    + intros a. rewrite elem_of_app, list_elem_of_singleton, Hin.
      destruct (decide (p = a)) as [->|Hne]; autorewrite with ledger.
      * tauto.
      * split; [intros [|]; congruence|tauto].
  - unfold directory_matches. cbn [fold_left apply_event].
    rewrite jsmap_keys_delete. split.
    + apply NoDup_ListNoDup, List.NoDup_filter. by apply NoDup_ListNoDup.
    + intros a. rewrite list_elem_of_In, filter_In, <- list_elem_of_In, Hin.
      rewrite negb_true_iff, N.eqb_neq.
      destruct (decide (p = a)) as [->|Hne]; autorewrite with ledger.
      * split; [tauto|done].
      * split; [tauto|]. intros H. split; [done|congruence].
  - destruct E. rewrite ve_log0.
    assert (fold_left apply_event
              (Voted h (msg_sender t.1) b
               :: (if finalized (article (execute t s) h)
                   then [Finalized h (status (article (execute t s) h))] else [])) m
            = m) as -> by (destruct (finalized (article (execute t s) h)); reflexivity).
    apply Hsame. by rewrite ve_registry0.
  - destruct E. rewrite se_log0.
    assert (fold_left apply_event
              (if auto_verifies s p
               then [PublisherAutoVerified h; Finalized h VerifiedTrue]
               else [Submitted h (msg_sender t.1) u]) m
            = m) as -> by (destruct (auto_verifies s p); reflexivity).
    apply Hsame. by rewrite se_registry0.
Qed.

Lemma directory_replay ts s m :
  directory_matches m s →
  directory_matches (fold_left apply_event (history ts s) m) (replay ts s).
Proof.
  revert s m. induction ts as [|t ts IH]; intros s m Hm; [done|].
  rewrite replay_cons. simpl history. rewrite fold_left_app.
  by apply IH, directory_step.
Qed.

(** For a chain log that records the events of a trace from deployment in
    chain order, the list [load] shows holds every trusted address exactly
    once and no other address. *)
Theorem trustedList_matches_registry ts d1 d2 vp mv chain :
  map le_event chain = history ts (genesis d1 d2 vp mv) →
  chain_ordered chain →
  NoDup (trustedList chain)
  ∧ ∀ a, a ∈ trustedList chain ↔ trusted (replay ts (genesis d1 d2 vp mv)) a = true.
Proof.
  intros Hlog Hord. unfold trustedList. cbv zeta.
  rewrite (sort_evts_chain_order chain Hord), fold_chain_evts, Hlog.
  apply (directory_replay ts (genesis d1 d2 vp mv) []).
  split; [constructor|]. intros a. split.
  - intros H. by apply elem_of_nil in H.
  - unfold trusted; simpl. by rewrite lookup_empty.
Qed.

Lemma trustedList_matches_registry_witness :
  let ts := [ (mkCtx 1 2, AddPublisher 9); (mkCtx 5 3, SubmitArticle 78 "v" 9);
              (mkCtx 1 4, AddPublisher 10); (mkCtx 1 5, RemovePublisher 9);
              (mkCtx 1 6, AddPublisher 9) ] in
  trustedList (stamp (history ts demo_genesis)) = [10; 9]
  ∧ trusted (replay ts demo_genesis) 9 = true.
Proof.
  intros ts.
  destruct (trustedList_matches_registry ts (mkCtx 1 1) (mkCtx 1 1) 60 1
              (stamp (history ts demo_genesis))) as [_ Hin].
  - vm_compute. reflexivity.
  - vm_compute. repeat (constructor; [|repeat (constructor; [left; reflexivity|])]).
    all: constructor.
  - split; [vm_compute; reflexivity|]. apply Hin. vm_compute.
    apply list_elem_of_In. simpl. tauto.
Defined.

(** * The web client *)

(** ** Status labels *)

(** The label the client prints determines the status: [statusToString]
    gives a status name exactly for the code of that status, so a label that
    reads as a status is never shown for another code, and every code
    outside the enum gets the label "Unknown(" followed by the code in
    decimal and ")".  The badge of the status page prints the same label for
    every number, in the success colour exactly for VerifiedTrue, the danger
    colour exactly for MarkedFake, the warning colour exactly for Disputed,
    and in the secondary colour for UnderReview and for every code outside
    the enum. *)
Theorem status_label_decodes n st :
  (statusToString n = status_name st ↔ n = status_code st)
  ∧ statusToString (status_code st) = status_name st
  ∧ (3 < n → statusToString n = "Unknown(" +:+ pretty n +:+ ")")
  ∧ StatusBadge_label n = statusToString n
  ∧ (StatusBadge_cls n = "success" ↔ n = status_code VerifiedTrue)
  ∧ (StatusBadge_cls n = "danger" ↔ n = status_code MarkedFake)
  ∧ (StatusBadge_cls n = "warning" ↔ n = status_code Disputed)
  ∧ (StatusBadge_cls n = "secondary" ↔ n = status_code UnderReview ∨ 3 < n).
Proof.
  split; [|split; [by destruct st|split; [|split; [reflexivity|]]]].
  - unfold statusToString.
    destruct (N.eqb_spec n 0) as [->|H0].
    { destruct st; simpl; split; (done || discriminate). }
    destruct (N.eqb_spec n 1) as [->|H1].
    { destruct st; simpl; split; (done || discriminate). }
    destruct (N.eqb_spec n 2) as [->|H2].
    { destruct st; simpl; split; (done || discriminate). }
    destruct (N.eqb_spec n 3) as [->|H3].
    { destruct st; simpl; split; (done || discriminate). }
    split.
    + intros H. exfalso. destruct st; cbn [status_name String.app] in H;
        discriminate H.
    + intros ->. destruct st; done.
  - intros Hn. unfold statusToString.
    destruct (N.eqb_spec n 0); [lia|]. destruct (N.eqb_spec n 1); [lia|].
    destruct (N.eqb_spec n 2); [lia|]. destruct (N.eqb_spec n 3); [lia|].
    reflexivity.
  - unfold StatusBadge_cls. simpl status_code.
    destruct (N.eqb_spec n 1) as [->|H1].
    { repeat split; try (done || discriminate). intros [|]; [done|lia]. }
    destruct (N.eqb_spec n 2) as [->|H2].
    { repeat split; try (done || discriminate). intros [|]; [done|lia]. }
    destruct (N.eqb_spec n 3) as [->|H3].
    { repeat split; try (done || discriminate). intros [|]; [done|lia]. }
    repeat split; try (done || discriminate). intros _. lia.
Qed.

Example status_labels_of_the_enum :
  map (λ st, statusToString (status_code st))
      [UnderReview; VerifiedTrue; MarkedFake; Disputed]
  = ["UnderReview"; "VerifiedTrue"; "MarkedFake"; "Disputed"]
  ∧ statusToString 7 = "Unknown(7)".
Proof. split; vm_compute; reflexivity. Qed.

(** ** Shortened hashes *)

Lemma short_unfold (h : list N) (start e : nat) :
  short h start e
  = if (length h <=? start + e)%nat then h
    else take start h ++ [ELLIPSIS] ++ slice_from_end e h.
Proof. by destruct h. Qed.

(** [short] returns a string of at most [start + end] code units as it is.
    A longer one becomes its first [start] units, the ellipsis, and, for a
    positive [end], its last [end] units: [start + end + 1] units, never more
    than the input.  With [end = 0] the part after the ellipsis is the whole
    input again, so the result is longer than the input. *)
Theorem short_shape (h : list N) (start e : nat) :
  ((length h ≤ start + e → short h start e = h)
   ∧ (start + e < length h → 0 < e →
        short h start e = take start h ++ ELLIPSIS :: drop (length h - e) h
        ∧ length (short h start e) = start + e + 1
        ∧ length (short h start e) ≤ length h)
   ∧ (start < length h → e = 0 →
        short h start e = take start h ++ ELLIPSIS :: h
        ∧ length h < length (short h start e)))%nat.
Proof.
  rewrite short_unfold. unfold slice_from_end. split; [|split].
  - intros Hle. by rewrite (proj2 (Nat.leb_le _ _) Hle).
  - intros Hlt He. rewrite (proj2 (Nat.leb_gt _ _) Hlt).
    destruct (Nat.eqb_spec e 0) as [->|_]; [lia|].
    split; [done|].
    rewrite length_app, length_take. cbn [app length].
    rewrite length_drop. lia.
  - intros Hlt ->. rewrite Nat.add_0_r, (proj2 (Nat.leb_gt _ _) Hlt).
    simpl Nat.eqb. cbv iota. split; [done|].
    rewrite length_app, length_take. cbn [app length]. lia.
Qed.

Lemma short_shape_witness :
  short (js "0x1234567890abcdef") 4 4 = js "0x12" ++ ELLIPSIS :: js "cdef".
Proof.
  destruct (short_shape (js "0x1234567890abcdef") 4 4) as (_ & Hlong & _).
  destruct Hlong as (-> & _); [vm_compute; lia..|].
  vm_compute. reflexivity.
Defined.

(** ** Thousands separators *)

Lemma is_digit_word c : is_digit c = true → is_word c = true.
Proof. unfold is_word. by intros ->. Qed.

Lemma digit_run_app (s t : list N) :
  Forall (λ c, is_digit c = true) s →
  digit_run (s ++ t) = (length s + digit_run t)%nat.
Proof.
  induction 1 as [|c s Hc _ IH]; simpl; [done|]. by rewrite Hc, IH.
Qed.

Lemma digit_run_digits (s : list N) :
  Forall (λ c, is_digit c = true) s → digit_run s = length s.
Proof.
  intros Hs. rewrite <- (app_nil_r s) at 1. rewrite digit_run_app by done.
  simpl. lia.
Qed.

Lemma insert_commas_keeps_text pw (s : list N) :
  Forall (λ c, c ≠ COMMA) s →
  List.filter (λ c, negb (c =? COMMA)) (insert_commas pw s) = s.
Proof.
  intros Hs. revert pw. induction Hs as [|c s Hc _ IH]; intros pw; simpl; [done|].
  assert (negb (c =? COMMA) = true) as Hk
    by (apply negb_true_iff, N.eqb_neq; done).
  destruct (eqb pw (is_word c) && groups_of_three_ahead (c :: s)); simpl;
    by rewrite Hk, IH.
Qed.

Lemma insert_commas_cons pw c (s : list N) :
  insert_commas pw (c :: s)
  = (if eqb pw (is_word c) && groups_of_three_ahead (c :: s) then [COMMA] else [])
    ++ c :: insert_commas (is_word c) s.
Proof. reflexivity. Qed.

Lemma groups_of_three_ahead_digits (s : list N) :
  Forall (λ c, is_digit c = true) s →
  groups_of_three_ahead s
  = negb (Nat.eqb (length s) 0) && Nat.eqb (length s mod 3) 0.
Proof. intros Hs. unfold groups_of_three_ahead. by rewrite digit_run_digits. Qed.

Lemma insert_commas_below_three (s : list N) :
  Forall (λ c, is_digit c = true) s → (length s < 3)%nat →
  insert_commas true s = s.
Proof.
  intros Hs. induction Hs as [|c s Hc Hs IH]; intros Hlen; [done|].
  rewrite insert_commas_cons, (is_digit_word c Hc).
  rewrite groups_of_three_ahead_digits by by constructor.
  rewrite IH by (simpl in Hlen; lia).
  simpl length in *.
  assert (Nat.eqb (S (length s) mod 3) 0 = false) as ->.
  { apply Nat.eqb_neq. rewrite Nat.mod_small by lia. lia. }
  by rewrite andb_false_r.
Qed.

Lemma insert_commas_last_group pw c (s d : list N) :
  Forall (λ c, is_digit c = true) (c :: s) →
  Forall (λ c, is_digit c = true) d →
  length d = 3%nat →
  insert_commas pw ((c :: s) ++ d) = insert_commas pw (c :: s) ++ COMMA :: d.
Proof.
  intros Hs Hd Hlen.
  assert (insert_commas true d = COMMA :: d) as Hgroup.
  { destruct d as [|x d']; [discriminate Hlen|].
    pose proof Hd as Hd0. apply Forall_cons in Hd0 as [Hx Hd'].
    rewrite insert_commas_cons, (is_digit_word x Hx).
    rewrite groups_of_three_ahead_digits, Hlen by done.
    rewrite insert_commas_below_three by (simpl in Hlen; (done || lia)).
    reflexivity. }
  assert (∀ l : list N, Forall (λ c, is_digit c = true) l → l ≠ [] →
            groups_of_three_ahead (l ++ d) = groups_of_three_ahead l) as Hahead.
  { intros l Hl Hne.
    rewrite !groups_of_three_ahead_digits by (done || by apply Forall_app).
    rewrite length_app, Hlen.
    destruct l as [|y l]; [done|]. simpl length.
    replace (S (length l) + 3)%nat with (S (length l) + 1 * 3)%nat by lia.
    rewrite Nat.Div0.mod_add. by rewrite Nat.add_comm. }
  revert c pw Hs. induction s as [|c' s IH]; intros c pw Hs.
  - pose proof Hs as Hs0. apply Forall_cons in Hs0 as [Hc _].
    change ([c] ++ d) with (c :: d).
    rewrite !insert_commas_cons, (is_digit_word c Hc), Hgroup.
    change (c :: d) with ([c] ++ d). rewrite Hahead by done.
    simpl insert_commas. by rewrite <- !app_assoc.
  - pose proof Hs as Hs0. apply Forall_cons in Hs0 as [Hc Hs'].
    change ((c :: c' :: s) ++ d) with (c :: ((c' :: s) ++ d)).
    rewrite !insert_commas_cons. rewrite (IH c' (is_word c) Hs').
    change (c :: (c' :: s) ++ d) with ((c :: c' :: s) ++ d).
    rewrite Hahead by done. by rewrite <- !app_assoc.
Qed.

(** For a string of decimal digits, [numberWithCommas] only inserts commas
    (taking them out gives the digits back), leaves up to three digits as
    they are, and puts one comma before the last three digits of a longer
    number, the part before being separated in the same way. *)
Theorem numberWithCommas_groups (d : list N) :
  Forall (λ c, is_digit c = true) d →
  List.filter (λ c, negb (c =? COMMA)) (numberWithCommas d) = d
  ∧ ((length d ≤ 3)%nat → numberWithCommas d = d)
  ∧ (∀ d1 d2, d = d1 ++ d2 → d1 ≠ [] → length d2 = 3%nat →
       numberWithCommas d = numberWithCommas d1 ++ COMMA :: d2).
Proof.
  intros Hd. unfold numberWithCommas. split; [|split].
  - apply insert_commas_keeps_text. eapply Forall_impl; [done|].
    intros c Hc ->. done.
  - intros Hlen. destruct Hd as [|c d Hc Hd]; [done|].
    rewrite insert_commas_cons, (is_digit_word c Hc). simpl eqb. cbv iota.
    rewrite insert_commas_below_three by (simpl in Hlen; (done || lia)).
    reflexivity.
  - intros d1 d2 -> Hne Hlen. apply Forall_app in Hd as [H1 H2].
    destruct d1 as [|c d1]; [done|]. by apply insert_commas_last_group.
Qed.

Lemma numberWithCommas_groups_witness :
  numberWithCommas (js "1234567") = js "1,234,567".
Proof.
  destruct (numberWithCommas_groups (js "1234567")) as (_ & _ & Hlast).
  - vm_compute. repeat constructor.
  - rewrite (Hlast (js "1234") (js "567")); [|vm_compute; reflexivity
                                               |discriminate|reflexivity].
    vm_compute. reflexivity.
Defined.

(** ** Hex form of a digest *)

Lemma hex_value_digit d : d < 16 → hex_value (hex_digit d) = Some d.
Proof.
  intros Hd. unfold hex_digit, hex_value.
  destruct (N.ltb_spec d 10).
  - assert ((48 <=? 48 + d) && (48 + d <=? 57) = true) as ->.
    { apply andb_true_iff. split; apply N.leb_le; lia. }
    f_equal. lia.
  - assert ((48 <=? 87 + d) && (87 + d <=? 57) = false) as ->.
    { apply andb_false_iff. right. apply N.leb_gt. lia. }
    assert ((97 <=? 87 + d) && (87 + d <=? 102) = true) as ->.
    { apply andb_true_iff. split; apply N.leb_le; lia. }
    f_equal. lia.
Qed.

Lemma byte_to_hex b :
  b < 256 →
  padStart2 (toString16 b) = [hex_digit (b / 16); hex_digit (b mod 16)].
Proof.
  intros Hb. unfold toString16, padStart2.
  destruct (N.ltb_spec b 16); [|done].
  simpl. by rewrite N.div_small, N.mod_small.
Qed.

(** For the bytes of a digest, the hex string has two characters per byte,
    all of them digits or lower-case [a] to [f], and reading it back gives
    the bytes: different digests have different strings.  A 32-byte digest
    gives the 64 characters [submit] checks for. *)
Theorem bytes_to_hex_round_trip (bytes : list N) :
  Forall (λ b, b < 256) bytes →
  length (bytes_to_hex bytes) = (2 * length bytes)%nat
  ∧ Forall (λ c, is_Some (hex_value c)) (bytes_to_hex bytes)
  ∧ hex_to_bytes (bytes_to_hex bytes) = Some bytes
  ∧ (length bytes = 32%nat → length (bytes_to_hex bytes) = 64%nat).
Proof.
  intros Hb.
  assert (length (bytes_to_hex bytes) = (2 * length bytes)%nat
          ∧ Forall (λ c, is_Some (hex_value c)) (bytes_to_hex bytes)
          ∧ hex_to_bytes (bytes_to_hex bytes) = Some bytes) as (Hlen & Hall & Hback).
  { unfold bytes_to_hex. induction Hb as [|b bytes Hb _ (IHlen & IHall & IHback)].
    { repeat split; constructor. }
    cbn [map concat]. rewrite (byte_to_hex b Hb). cbn [app length hex_to_bytes].
    assert (b / 16 < 16) as Hhi by (apply N.Div0.div_lt_upper_bound; lia).
    assert (b mod 16 < 16) as Hlo by (apply N.mod_lt; lia).
    rewrite !hex_value_digit, IHback, IHlen by done.
    split; [lia|]. split.
    - repeat constructor; [by rewrite hex_value_digit..|done].
    - f_equal. f_equal. rewrite (N.div_mod b 16) at 3 by lia. lia. }
  repeat split; try done. intros H32. rewrite Hlen, H32. done.
Qed.

Lemma bytes_to_hex_round_trip_witness :
  bytes_to_hex [0; 10; 255; 16] = js "000aff10"
  ∧ hex_to_bytes (js "000aff10") = Some [0; 10; 255; 16].
Proof.
  destruct (bytes_to_hex_round_trip [0; 10; 255; 16]) as (_ & _ & Hback & _).
  - repeat constructor.
  - assert (bytes_to_hex [0; 10; 255; 16] = js "000aff10") as E
      by (vm_compute; reflexivity).
    split; [exact E|]. rewrite <- E. exact Hback.
Defined.

(** ** Recent blocks *)




(** ** Expanded transactions *)

(** [toggleTx] flips the membership of the given hash and of no other, and
    toggling the same hash twice gives the set back. *)
Theorem toggleTx_flips (hash : list N) (prev : gset (list N)) :
  (hash ∈ toggleTx hash prev ↔ hash ∉ prev)
  ∧ (∀ other, other ≠ hash → (other ∈ toggleTx hash prev ↔ other ∈ prev))
  ∧ toggleTx hash (toggleTx hash prev) = prev.
Proof.
  assert (∀ x, x ∈ toggleTx hash prev ↔
               (x ∈ prev ∧ x ≠ hash) ∨ (x = hash ∧ hash ∉ prev)) as Hmem.
  { intros x. unfold toggleTx. destruct (decide (hash ∈ prev)) as [Hin|Hout].
    - rewrite elem_of_difference, elem_of_singleton.
      split; [tauto|]. intros [|[_ ?]]; tauto.
    - rewrite elem_of_union, elem_of_singleton.
      split; [|tauto]. intros [Hx | ->]; [|tauto]. left. split; [done|].
      intros ->. done. }
  split; [|split].
  - rewrite Hmem. tauto.
  - intros other Hne. rewrite Hmem. tauto.
  - apply set_eq. intros x. unfold toggleTx at 1.
    destruct (decide (hash ∈ toggleTx hash prev)) as [Hin|Hout].
    + rewrite elem_of_difference, elem_of_singleton, Hmem.
      apply Hmem in Hin. destruct (decide (x = hash)) as [->|]; tauto.
    + rewrite elem_of_union, elem_of_singleton, Hmem.
      rewrite Hmem in Hout. destruct (decide (hash ∈ prev)); [|tauto].
      destruct (decide (x = hash)) as [->|]; tauto.
Qed.

(** ** Hash input *)

Lemma trimStart_keeps c (s : list N) :
  is_js_space c = false → trimStart (c :: s) = c :: s.
Proof. intros H. simpl. by rewrite H. Qed.

Lemma trimStart_snoc (w : list N) c :
  is_js_space c = false → trimStart (w ++ [c]) = trimStart w ++ [c].
Proof.
  intros Hc. induction w as [|x w IH]; simpl; [by rewrite Hc|].
  by destruct (is_js_space x).
Qed.

Lemma trimEnd_cons c (s : list N) :
  is_js_space c = false → trimEnd (c :: s) = c :: trimEnd s.
Proof.
  intros Hc. unfold trimEnd. rewrite reverse_cons, trimStart_snoc by done.
  by rewrite reverse_app.
Qed.

Lemma trimStart_idem (s : list N) : trimStart (trimStart s) = trimStart s.
Proof.
  induction s as [|c s IH]; simpl; [done|].
  destruct (is_js_space c) eqn:E; [done|]. simpl. by rewrite E.
Qed.

Lemma trimEnd_idem (s : list N) : trimEnd (trimEnd s) = trimEnd s.
Proof. unfold trimEnd. by rewrite reverse_involutive, trimStart_idem. Qed.

Lemma trimStart_head (s : list N) :
  trimStart s = [] ∨ ∃ c r, trimStart s = c :: r ∧ is_js_space c = false.
Proof.
  induction s as [|c s IH]; simpl; [by left|].
  destruct (is_js_space c) eqn:E; [done|]. right. eauto.
Qed.

(** A trimmed string stays as it is under both halves of [trim]. *)
Lemma trim_fixed (s : list N) :
  trimStart (trim s) = trim s ∧ trimEnd (trim s) = trim s.
Proof.
  unfold trim. split; [|apply trimEnd_idem].
  destruct (trimStart_head s) as [->|(c & r & -> & Hc)]; [done|].
  rewrite trimEnd_cons by done. by apply trimStart_keeps.
Qed.

Lemma trimStart_split (s : list N) :
  ∃ pre, s = pre ++ trimStart s ∧ Forall (λ c, is_js_space c = true) pre.
Proof.
  induction s as [|c s (pre & Hs & Hpre)]; simpl.
  - by exists [].
  - destruct (is_js_space c) eqn:E.
    + exists (c :: pre). split; [by rewrite Hs at 1|by constructor].
    + by exists [].
Qed.

Lemma trimEnd_split (s : list N) :
  ∃ post, s = trimEnd s ++ post ∧ Forall (λ c, is_js_space c = true) post.
Proof.
  destruct (trimStart_split (reverse s)) as (pre & Hs & Hpre).
  exists (reverse pre). split.
  - unfold trimEnd. rewrite <- reverse_app, <- Hs. by rewrite reverse_involutive.
  - by apply Forall_reverse.
Qed.

Lemma trimEnd_last (s r : list N) c :
  trimEnd s = r ++ [c] → is_js_space c = false.
Proof.
  unfold trimEnd.
  destruct (trimStart_head (reverse s)) as [->|(c0 & r0 & -> & Hc0)].
  - intros H. by destruct r.
  - rewrite reverse_cons. intros H. apply app_inj_tail in H as [_ ->]. done.
Qed.

Lemma trim_first (s r : list N) c :
  trim s = c :: r → is_js_space c = false.
Proof.
  unfold trim.
  destruct (trimStart_head s) as [->|(c0 & r0 & -> & Hc0)]; [done|].
  rewrite trimEnd_cons by done. by intros [= <- _].
Qed.

Lemma trim_spaces (s : list N) :
  Forall (λ c, is_js_space c = true) s → trim s = [].
Proof.
  intros Hs. unfold trim.
  assert (trimStart s = []) as ->; [|done].
  induction Hs as [|c s Hc _ IH]; simpl; [done|]. by rewrite Hc.
Qed.

(** [normalizeHexInput] maps the empty input to the empty string.  Of every
    other input it takes the part between the leading and the trailing white
    space, which neither starts nor ends with white space, and returns it as
    it is when it starts with [0x], and with [0x] put in front otherwise; so
    white space alone becomes [0x], the result always starts with [0x] and
    has no white space at either end, and applying the function to its own
    result changes nothing. *)
Theorem normalizeHexInput_idempotent (raw : list N) :
  (raw = [] → normalizeHexInput raw = [])
  ∧ (raw ≠ [] → Forall (λ c, is_js_space c = true) raw →
     normalizeHexInput raw = js "0x")
  ∧ (raw ≠ [] →
     ∃ pre core post,
       raw = pre ++ core ++ post
       ∧ Forall (λ c, is_js_space c = true) pre
       ∧ Forall (λ c, is_js_space c = true) post
       ∧ (∀ c r, core = c :: r → is_js_space c = false)
       ∧ (∀ r c, core = r ++ [c] → is_js_space c = false)
       ∧ normalizeHexInput raw
         = if startsWith_0x core then core else js "0x" ++ core)
  ∧ (raw ≠ [] → startsWith_0x (normalizeHexInput raw) = true)
  ∧ trim (normalizeHexInput raw) = normalizeHexInput raw
  ∧ normalizeHexInput (normalizeHexInput raw) = normalizeHexInput raw.
Proof.
  destruct raw as [|c0 raw0].
  { split; [done|]. do 2 (split; [done|]). split; [done|]. split; done. }
  set (raw := c0 :: raw0).
  assert (normalizeHexInput raw
          = if startsWith_0x (trim raw) then trim raw else js "0x" ++ trim raw)
    as E by reflexivity.
  assert (startsWith_0x (normalizeHexInput raw) = true) as Hpre.
  { rewrite E. by destruct (startsWith_0x (trim raw)) eqn:Hs. }
  assert (trim (normalizeHexInput raw) = normalizeHexInput raw) as Htrim.
  { rewrite E. destruct (trim_fixed raw) as [H1 H2].
    destruct (startsWith_0x (trim raw)).
    - unfold trim at 1. by rewrite H1.
    - change (js "0x" ++ trim raw) with (48 :: 120 :: trim raw).
      unfold trim at 1. rewrite trimStart_keeps by done.
      by rewrite !trimEnd_cons, H2. }
  split; [done|]. split; [|split; [|split; [done|split; [done|]]]].
  - intros _ Hsp. by rewrite E, trim_spaces.
  - intros _. destruct (trimStart_split raw) as (pre & Hraw & Hspre).
    destruct (trimEnd_split (trimStart raw)) as (post & Hmid & Hspost).
    exists pre, (trim raw), post. split.
    { unfold trim. by rewrite <- Hmid. }
    do 2 (split; [done|]). split; [|split; [|done]].
    + intros c r Hc. by apply (trim_first raw r).
    + intros r c Hc. by apply (trimEnd_last (trimStart raw) r).
  - destruct (normalizeHexInput raw) as [|x r] eqn:En; [done|].
    change (normalizeHexInput (x :: r))
      with (if startsWith_0x (trim (x :: r)) then trim (x :: r)
            else js "0x" ++ trim (x :: r)).
    by rewrite Htrim, Hpre.
Qed.

Example normalizeHexInput_samples :
  normalizeHexInput (js "  ab12 ") = js "0xab12"
  ∧ normalizeHexInput (js " 0xab12") = js "0xab12"
  ∧ normalizeHexInput (js "   ") = js "0x"
  ∧ normalizeHexInput (js "0Xab") = js "0x0Xab".
Proof. repeat split; vm_compute; reflexivity. Qed.

(** * Reverts and the client's checks before sending *)

(** The reason of a reverted [vote] names the test that failed: "Not
    submitted" only for a missing record, "Already finalized" only for a
    finalized one, "Already voted" only for an open record the caller has
    voted on, each before anything is written; the one other reason is the
    overflow panic, on an open record the caller has not voted on. *)
Theorem vote_revert_reasons ctx s h support e d :
  run (vote ctx h support) s = Revert e d →
  (e = NotFound ∧ recorded s h = false ∧ d = s)
  ∨ (e = AlreadyFinalized ∧ recorded s h = true
     ∧ finalized (article s h) = true ∧ d = s)
  ∨ (e = DuplicateVote ∧ recorded s h = true ∧ finalized (article s h) = false
     ∧ voted s h (msg_sender ctx) = true ∧ d = s)
  ∨ (e = ArithmeticOverflow ∧ recorded s h = true
     ∧ finalized (article s h) = false ∧ voted s h (msg_sender ctx) = false).
Proof.
  unfold recorded, vote. tx_unfold. intros H.
  destruct (createdAt (article s h) =? 0) eqn:E1; simpl in H.
  { left. by simplify_eq. }
  destruct (finalized (article s h)) eqn:E2; simpl in H.
  { right; left. by simplify_eq. }
  destruct (voted s h (msg_sender ctx)) eqn:E3; simpl in H.
  { right; right; left. by simplify_eq. }
  do 3 right. split; [|done].
  repeat (case_match; simplify_eq); done.
Qed.

Lemma vote_revert_reasons_witness :
  finalized (article demo_closed 77) = true.
Proof.
  destruct (vote_revert_reasons (mkCtx 8 2000) demo_closed 77 true
              AlreadyFinalized demo_closed) as [H|[H|[H|H]]].
  - vm_compute. reflexivity.
  - destruct H as [H _]. discriminate H.
  - destruct H as (_ & _ & Hf & _). exact Hf.
  - destruct H as [H _]. discriminate H.
  - destruct H as [H _]. discriminate H.
Defined.

(** The pre-check of the submit form against the contract.  When the read
    throws, [precheckHash] returns [null] whatever the ledger holds, so
    [null] alone does not tell that the fingerprint is free.  When the read
    returns, it returns [null] exactly when [submitArticle] for that
    fingerprint goes through, for every caller, uri and claimed publisher.
    A record it returns is the stored one, and then every submission of the
    fingerprint reverts with "Already submitted", the only reason
    [submitArticle] ever reverts with. *)
Theorem precheckHash_predicts_submitArticle s h :
  precheckHash None h = None
  ∧ (precheckHash (Some s) h = None ↔
       ∀ ctx u p, ∃ s' log, run (submitArticle ctx h u p) s = Done () s' log)
  ∧ (∀ chain a, precheckHash chain h = Some a →
       ∃ s0, chain = Some s0 ∧ a = article s0 h
         ∧ ∀ ctx u p,
             run (submitArticle ctx h u p) s0 = Revert DuplicateSubmission s0)
  ∧ (∀ ctx u p e d, run (submitArticle ctx h u p) s = Revert e d →
       e = DuplicateSubmission ∧ d = s
       ∧ precheckHash (Some s) h = Some (article s h)
       ∧ precheckHash None h = None).
Proof.
  split; [done|].
  assert (∀ s0 a, precheckHash (Some s0) h = Some a →
            a = article s0 h ∧ createdAt (article s0 h) ≠ 0) as Hsome.
  { intros s0 a. unfold precheckHash. rewrite getArticle_run.
    destruct (N.eqb_spec (createdAt (article s0 h)) 0); [done|].
    by intros [= <-]. }
  split; [|split].
  - unfold precheckHash. rewrite getArticle_run.
    destruct (N.eqb_spec (createdAt (article s h)) 0) as [Hz|Hnz].
    + split; [|done]. intros _ ctx u p. by apply submit_fresh_runs.
    + split; [done|]. intros Hall.
      destruct (Hall (mkCtx 0 0) "" 0) as (s' & log & Hd).
      rewrite (submit_duplicate _ _ _ _ _ Hnz) in Hd. discriminate.
  - intros [s0|] a Ha; [|done].
    destruct (Hsome s0 a Ha) as [-> Hnz]. exists s0.
    do 2 (split; [done|]). intros ctx u p. by apply submit_duplicate.
  - intros ctx u p e d Hr.
    destruct (N.eqb_spec (createdAt (article s h)) 0) as [Hz|Hnz].
    + destruct (submit_fresh_runs ctx s h u p Hz) as (s' & log & Hd). congruence.
    + rewrite (submit_duplicate _ _ _ _ _ Hnz) in Hr. injection Hr as <- <-.
      do 2 (split; [done|]). split; [|done].
      unfold precheckHash. rewrite getArticle_run.
      by destruct (N.eqb_spec (createdAt (article s h)) 0).
Qed.

(** A failed read hides an existing record from the pre-check: article 77
    exists in [demo_open], yet the pre-check answers [null] when the provider
    throws, and the submission that follows is rejected by the contract. *)
Example precheckHash_when_read_fails :
  precheckHash (Some demo_open) 77 = Some (article demo_open 77)
  ∧ precheckHash None 77 = None
  ∧ run (submitArticle (mkCtx 8 2000) 77 "w" 0) demo_open
    = Revert DuplicateSubmission demo_open.
Proof. repeat split; vm_compute; reflexivity. Qed.

(** ** Logging in *)

(** A login attempt leaves the client in the requested role or in the role
    it had.  Guest is always granted.  Publisher is granted exactly when a
    wallet is connected, the registry can be read and it trusts the wallet's
    address; Owner exactly when the address is the owner of the
    PublisherRegistry, and then an [addPublisher] sent from that address is
    not refused as unauthorized. *)
Theorem attemptSetRole_grants requested connected chain role :
  let after := (attemptSetRole requested connected chain role).1 in
  (after = requested ∨ after = role)
  ∧ (requested = RoleGuest → after = RoleGuest)
  ∧ (requested = RolePublisher → role ≠ RolePublisher →
     (after = RolePublisher ↔
        ∃ a s, connected = Some a ∧ chain = Some s ∧ trusted s a = true))
  ∧ (requested = RoleOwner → role ≠ RoleOwner →
     (after = RoleOwner ↔
        ∃ a s, connected = Some a ∧ chain = Some s ∧ pr_owner (registry s) = a
          ∧ ∀ t p d, run (addPublisher (mkCtx a t) p) s ≠ Revert (Unauthorized a) d)).
Proof.
  intros after. subst after. unfold attemptSetRole.
  split; [|split; [|split]].
  - destruct requested, connected as [a|]; simpl; auto;
      [destruct (isTrustedPublisher chain a)|destruct (isOwnerAddress chain a)];
      simpl; auto.
  - by intros ->.
  - intros -> Hrole. destruct connected as [a|]; simpl.
    + destruct chain as [s|]; simpl.
      * destruct (trusted s a) eqn:Et; simpl.
        -- split; [eauto 6|done].
        -- split; [done|]. intros (a' & s' & [= <-] & [= <-] & Ht). congruence.
      * split; [done|]. intros (a' & s' & _ & [=] & _).
    + split; [done|]. intros (a' & s' & [=] & _).
  - intros -> Hrole. destruct connected as [a|]; simpl.
    + destruct chain as [s|]; simpl.
      * destruct (N.eqb_spec (pr_owner (registry s)) a) as [Ho|Ho]; simpl.
        -- split; [|done]. intros _. exists a, s. do 3 (split; [done|]).
           intros t p d. rewrite addPublisher_run. simpl.
           destruct (decide (pr_owner (registry s) = a)); [|done].
           by destruct (trusted s p).
        -- split; [done|]. intros (a' & s' & [= <-] & [= <-] & Ho' & _). done.
      * split; [done|]. intros (a' & s' & _ & [=] & _).
    + split; [done|]. intros (a' & s' & [=] & _).
Qed.

(** ** What a vote leaves alone *)

(** A successful [vote(h, _)] writes the article [h] and the caller's vote
    record for [h] and nothing else: every other article, every other vote
    record, the voting parameters, the owner and the PublisherRegistry are
    as before, and of the article itself only the counters, the status and
    the finalized flag can differ. *)
Theorem vote_is_local ctx s h support s' log :
  run (vote ctx h support) s = Done () s' log →
  (∀ h', h' ≠ h → article s' h' = article s h')
  ∧ (∀ h' v, (h', v) ≠ (h, msg_sender ctx) → voted s' h' v = voted s h' v)
  ∧ registry s' = registry s
  ∧ nr_owner (news s') = nr_owner (news s)
  ∧ votingPeriod (news s') = votingPeriod (news s)
  ∧ minVotes (news s') = minVotes (news s)
  ∧ set_finalized (finalized (article s h))
      (set_status (status (article s h))
         (set_yesVotes (yesVotes (article s h))
            (set_noVotes (noVotes (article s h)) (article s' h))))
    = article s h.
Proof.
  intros Hrun. destruct (vote_done _ _ _ _ _ _ Hrun).
  destruct ve_params0 as (Ho & Hvp & Hmv).
  destruct ve_meta0 as (Hk & Hu & Hp & Hsub & Hc).
  split; [done|]. split; [|repeat split; try done].
  - intros h' v Hne. unfold voted. destruct (decide (h' = h)) as [->|Hh].
    + rewrite ve_voters0. rewrite lookup_insert_ne; [done|]. congruence.
    + by rewrite ve_voters_others0.
  - unfold set_finalized, set_status, set_yesVotes, set_noVotes; simpl.
    rewrite Hk, Hu, Hp, Hsub, Hc. by destruct (article s h).
Qed.

Lemma vote_is_local_witness :
  trusted demo_voted 9 = trusted demo_open 9
  ∧ voted demo_voted 77 7 = voted demo_open 77 7.
Proof.
  destruct (vote_is_local (mkCtx 6 1010) demo_open 77 true demo_voted
              [Voted 77 6 true]) as (_ & Hv & Hr & _).
  - vm_compute. reflexivity.
  - split.
    + unfold trusted. by rewrite Hr.
    + apply Hv. discriminate.
Defined.
